(** * genconf: dependency evaluation and repair over a Kconfig symbol graph

    A shallow embedding of [genconf.py]: the tri-valued expression
    evaluator ([expr_user_value]), the dependency checker ([dep_satisfied],
    [deps_met], [filter_unmet_deps]) and the round-based repair loop
    ([try_fix_deps]).

    The script works on objects owned by kconfiglib.  Symbols are modelled
    by their identity (a number); their [user_value] attribute, the only
    attribute the script writes (through [set_value]), lives in a finite
    map.  Everything kconfiglib computes from the schema and the assigned
    values ([tri_value], [str_value], [type]) is a field of the record
    [Kconfig], so that the results hold for every schema and every way of
    resolving values. *)

From Stdlib Require Import ZArith String Ascii List Lia Bool.
From stdpp Require Import base decidable option list gmap sets.
From stdpp Require strings.

Local Open Scope Z_scope.
Local Open Scope string_scope.

(** ** Python values and exceptions *)

(** The values the script handles are Python ints (tri-values [0], [1],
    [2], and whatever else a caller stored) and Python strings (the user
    value of string, int and hex symbols). *)
Inductive pyval : Type :=
  | VInt (z : Z)
  | VStr (s : string).

#[global] Instance pyval_eq_dec : EqDecision pyval.
Proof. solve_decision. Defined.

(** The exceptions that can leave the functions of the script.
    [SystemExit] is what [exit(1)] raises. *)
Inductive exn : Type :=
  | KeyError
  | TypeError
  | IndexError
  | SystemExit (code : Z).

Inductive res (A : Type) : Type :=
  | Ok (a : A)
  | Raise (e : exn).
Arguments Ok {A} a.
Arguments Raise {A} e.

Definition res_bind {A B : Type} (r : res A) (k : A -> res B) : res B :=
  match r with
  | Ok a => k a
  | Raise e => Raise e
  end.

Declare Scope res_scope.
Delimit Scope res_scope with res.
Notation "x <- r ;; k" := (res_bind r (fun x => k))
  (at level 100, r at next level, right associativity) : res_scope.

(** Truth value of a Python object: [not v]. *)
Definition py_not (v : pyval) : bool :=
  match v with
  | VInt z => Z.eqb z 0
  | VStr s => String.eqb s EmptyString
  end.

(** [a == b]: an int never equals a str. *)
Definition py_eq (a b : pyval) : bool :=
  match a, b with
  | VInt x, VInt y => Z.eqb x y
  | VStr x, VStr y => String.eqb x y
  | _, _ => false
  end.

(** [a < b]: ordering an int against a str raises [TypeError]. *)
Definition py_lt (a b : pyval) : res bool :=
  match a, b with
  | VInt x, VInt y => Ok (Z.ltb x y)
  | VStr x, VStr y => Ok (String.ltb x y)
  | _, _ => Raise TypeError
  end.

Definition py_gt (a b : pyval) : res bool := py_lt b a.

Definition py_le (a b : pyval) : res bool :=
  match a, b with
  | VInt x, VInt y => Ok (Z.leb x y)
  | VStr x, VStr y => Ok (String.leb x y)
  | _, _ => Raise TypeError
  end.

(** [min(a, b)] keeps [a] unless [b < a]; [max(a, b)] keeps [a] unless
    [b > a]. *)
Definition py_min (a b : pyval) : res pyval :=
  (lt <- py_lt b a ;; Ok (if lt then b else a))%res.

Definition py_max (a b : pyval) : res pyval :=
  (gt <- py_gt b a ;; Ok (if gt then b else a))%res.

(** [2 - v] *)
Definition py_rsub2 (v : pyval) : res pyval :=
  match v with
  | VInt z => Ok (VInt (2 - z))
  | VStr _ => Raise TypeError
  end.

(** ** Symbols and expressions *)

Definition sym_id : Type := nat.

(** [orig_type] and [type] of a symbol. *)
Inductive sym_type : Type :=
  | UNKNOWN | BOOL | TRISTATE | STRING | INT | HEX.

#[global] Instance sym_type_eq_dec : EqDecision sym_type.
Proof. solve_decision. Defined.

(** [t in K._BOOL_TRISTATE] *)
Definition in_BOOL_TRISTATE (t : sym_type) : bool :=
  match t with
  | BOOL | TRISTATE => true
  | _ => false
  end.

Inductive relop : Type :=
  | EQUAL | UNEQUAL | LESS | LESS_EQUAL | GREATER | GREATER_EQUAL.

#[global] Instance relop_eq_dec : EqDecision relop.
Proof. solve_decision. Defined.

(** A kconfiglib expression is a symbol or a tuple [(AND, a, b)],
    [(OR, a, b)], [(NOT, a)], [(rel, v1, v2)]; the operands of a relation
    are symbols. *)
Inductive expr : Type :=
  | ESym (s : sym_id)
  | EAnd (a b : expr)
  | EOr (a b : expr)
  | ENot (a : expr)
  | ERel (rel : relop) (v1 v2 : sym_id).

(** The [user_value] attribute of every symbol; a symbol that is not in
    the map has [user_value is None]. *)
Abbreviation store := (gmap sym_id pyval).

(** What the script reads from kconfiglib and from the Python runtime.

    - [name], [orig_type], [is_constant], [direct_dep]: attributes of a
      symbol fixed when the schema is loaded;
    - [tri_value], [str_value], [type]: properties kconfiglib computes
      from the schema and the current user values;
    - [py_int s base]: Python's [int(s, base)], [None] for [ValueError];
    - [set_order]: the order in which a Python [set] of symbols is
      iterated. *)
Record Kconfig : Type := {
  name : sym_id -> string;
  orig_type : sym_id -> sym_type;
  is_constant : sym_id -> bool;
  direct_dep : sym_id -> expr;
  tri_value : store -> sym_id -> Z;
  str_value : store -> sym_id -> string;
  type : store -> sym_id -> sym_type;
  py_int : string -> Z -> option Z;
  set_order : gset sym_id -> list sym_id
}.

(** kconfiglib's table [K.TRI_TO_STR], indexed as [K.TRI_TO_STR[v]]. *)
Definition TRI_TO_STR (v : pyval) : res string :=
  match v with
  | VInt 0 => Ok "n"
  | VInt 1 => Ok "m"
  | VInt 2 => Ok "y"
  | _ => Raise KeyError
  end.

(** kconfiglib's table [K.STR_TO_TRI], as [set_value] uses it. *)
Definition STR_TO_TRI (v : pyval) : option Z :=
  match v with
  | VStr s =>
      if String.eqb s "n" then Some 0
      else if String.eqb s "m" then Some 1
      else if String.eqb s "y" then Some 2
      else None
  | VInt _ => None
  end.

(** kconfiglib's table [K._TYPE_TO_BASE]. *)
Definition TYPE_TO_BASE (t : sym_type) : Z :=
  match t with
  | HEX => 16
  | INT => 10
  | _ => 0
  end.

(** [K._strcmp(s1, s2)] is [(s1 > s2) - (s1 < s2)]. *)
Definition _strcmp (s1 s2 : string) : Z :=
  match String.compare s1 s2 with
  | Lt => -1
  | Eq => 0
  | Gt => 1
  end.

(** Modelled from the spec: kconfiglib's [K.split_expr(expr, K.AND)],
    which is not part of the script, decomposes an expression into its
    top-level AND-conjuncts, left to right, splitting only at [AND]; an
    [OR], a [NOT], a relation or a symbol is one conjunct. *)
Fixpoint split_expr_AND (e : expr) : list expr :=
  match e with
  | EAnd a b => split_expr_AND a ++ split_expr_AND b
  | _ => [e]
  end.

Section Genconf.

Variable K : Kconfig.

(** [K._sym_to_num(sym)]: the tri-value of a bool or tristate symbol, the
    parsed string value of any other; [None] stands for [ValueError]. *)
Definition _sym_to_num (st : store) (sym : sym_id) : option Z :=
  if in_BOOL_TRISTATE (orig_type K sym) then Some (tri_value K st sym)
  else py_int K (str_value K st sym) (TYPE_TO_BASE (orig_type K sym)).

(** Modelled from the spec: the values an option can hold.  A boolean
    option only takes [n] or [y], a tristate option a tri-value, an
    option of another kind a scalar of its type given as a string (for
    int and hex, one that parses as a number). *)
Definition value_valid (sym : sym_id) (value : pyval) : bool :=
  match orig_type K sym, value with
  | BOOL, VInt z => Z.eqb z 2 || Z.eqb z 0
  | TRISTATE, VInt z => Z.eqb z 0 || Z.eqb z 1 || Z.eqb z 2
  | STRING, VStr _ => true
  | INT, VStr s => bool_decide (is_Some (py_int K s 10))
  | HEX, VStr s =>
      match py_int K s 16 with
      | Some z => Z.leb 0 z
      | None => false
      end
  | _, _ => false
  end.

(** Modelled from the spec: kconfiglib's [Symbol.set_value(value)], which
    is not part of the script, mutates the value of an option in place.
    The strings "n", "m", "y" are read as tri-values for a bool or
    tristate symbol; a value that equals the current user value changes
    nothing; a value the option cannot hold is ignored (kconfiglib warns
    and returns [False]); any other value becomes the user value. *)
Definition set_value (st : store) (sym : sym_id) (value : pyval) : store :=
  let value :=
    if in_BOOL_TRISTATE (orig_type K sym) then
      match STR_TO_TRI value with
      | Some z => VInt z
      | None => value
      end
    else value in
  if bool_decide (st !! sym = Some value) then st
  else if value_valid sym value then <[sym := value]> st
  else st.

(** ** The script *)

(** [user_value(sym)] *)
Definition user_value (st : store) (sym : sym_id) : pyval :=
  match st !! sym with
  | Some v => v
  | None => VInt (tri_value K st sym)
  end.

(** The relation case of [expr_user_value]. *)
Definition rel_user_value (st : store) (rel : relop) (v1 v2 : sym_id) : pyval :=
  let lexicographic := _strcmp (str_value K st v1) (str_value K st v2) in
  let comp :=
    if bool_decide (orig_type K v1 = STRING) && bool_decide (orig_type K v2 = STRING)
    then lexicographic
    else
      match _sym_to_num st v1, _sym_to_num st v2 with
      | Some n1, Some n2 => n1 - n2
      | _, _ => lexicographic
      end in
  let holds :=
    match rel with
    | EQUAL => Z.eqb comp 0
    | UNEQUAL => negb (Z.eqb comp 0)
    | LESS => Z.ltb comp 0
    | LESS_EQUAL => Z.leb comp 0
    | GREATER => Z.ltb 0 comp
    | GREATER_EQUAL => Z.leb 0 comp
    end in
  VInt (2 * (if holds then 1 else 0)).

(** [expr_user_value(expr)] *)
Fixpoint expr_user_value (st : store) (e : expr) : res pyval :=
  match e with
  | ESym s => Ok (user_value st s)
  | EAnd a b =>
      (v1 <- expr_user_value st a ;;
       if py_not v1 then Ok (VInt 0)
       else (v2 <- expr_user_value st b ;; py_min v1 v2))%res
  | EOr a b =>
      (v1 <- expr_user_value st a ;;
       if py_eq v1 (VInt 2) then Ok (VInt 2)
       else (v2 <- expr_user_value st b ;; py_max v1 v2))%res
  | ENot a =>
      (v <- expr_user_value st a ;; py_rsub2 v)%res
  | ERel rel v1 v2 => Ok (rel_user_value st rel v1 v2)
  end.

(** The symbols whose value one call of [expr_user_value] reads, in the
    order it reads them: the same control flow, recording the leaves. *)
Fixpoint expr_reads (st : store) (e : expr) : list sym_id :=
  match e with
  | ESym s => [s]
  | EAnd a b =>
      expr_reads st a ++
      match expr_user_value st a with
      | Ok v1 => if py_not v1 then [] else expr_reads st b
      | Raise _ => []
      end
  | EOr a b =>
      expr_reads st a ++
      match expr_user_value st a with
      | Ok v1 => if py_eq v1 (VInt 2) then [] else expr_reads st b
      | Raise _ => []
      end
  | ENot a => expr_reads st a
  | ERel _ v1 v2 => [v1; v2]
  end.

(** [dep_satisfied(sym, dep)] *)
Definition dep_satisfied (st : store) (sym dep : sym_id) : res bool :=
  let sym_value := user_value st sym in
  let dep_value := user_value st dep in
  if bool_decide (type K st sym = BOOL) then
    Ok (py_eq sym_value (VInt 0) || negb (py_eq dep_value (VInt 0)))
  else py_le sym_value dep_value.

(** [deps_met(sym)] *)
Definition deps_met (st : store) (sym : sym_id) : res bool :=
  let value := user_value st sym in
  (is_on <- py_gt value (VInt 0) ;;
   if is_on then
     if bool_decide (type K st sym = BOOL) then
       if py_eq value (VInt 0) then Ok true
       else (d <- expr_user_value st (direct_dep K sym) ;;
             Ok (negb (py_eq d (VInt 0))))
     else (d <- expr_user_value st (direct_dep K sym) ;; py_le value d)
   else Ok true)%res.

(** [filter_unmet_deps(symbols)] *)
Fixpoint filter_unmet_deps (st : store) (symbols : list sym_id) : res (list sym_id) :=
  match symbols with
  | [] => Ok []
  | x :: rest =>
      (keep <- (if in_BOOL_TRISTATE (orig_type K x)
                then (met <- deps_met st x ;; Ok (negb met))
                else Ok false) ;;
       tl <- filter_unmet_deps st rest ;;
       Ok (if keep then x :: tl else tl))%res
  end.

(** ** Repair *)

(** The part of the world [try_fix_deps] changes: the user values (by
    [set_value]) and the lines written to standard error (by [eprint]). *)
Record world : Type := World {
  uv : store;
  stderr : list string
}.

(** A computation of the repair loop runs in a world and either returns
    or raises; what it did before raising stays done. *)
Definition M (A : Type) : Type := world -> res A * world.

Definition ret {A : Type} (a : A) : M A := fun w => (Ok a, w).

Definition bind {A B : Type} (m : M A) (k : A -> M B) : M B :=
  fun w =>
    match m w with
    | (Ok a, w') => k a w'
    | (Raise e, w') => (Raise e, w')
    end.

Declare Scope repair_scope.
Delimit Scope repair_scope with repair.
Notation "x <- m ;; k" := (bind m (fun x => k))
  (at level 100, m at next level, right associativity) : repair_scope.
Notation "m ;; k" := (bind m (fun _ => k))
  (at level 100, right associativity) : repair_scope.

Definition lift {A : Type} (r : res A) : M A := fun w => (r, w).

Definition get_uv : M store := fun w => (Ok (uv w), w).

Definition eprint (line : string) : M unit :=
  fun w => (Ok tt, World (uv w) (stderr w ++ [line])).

Definition exit {A : Type} (code : Z) : M A :=
  fun w => (Raise (SystemExit code), w).

(** [sym.set_value(value)] on the world. *)
Definition do_set_value (sym : sym_id) (value : pyval) : M unit :=
  fun w => (Ok tt, World (set_value (uv w) sym value) (stderr w)).

Definition changing_line (nm v_old v_new : string) : string :=
  "warning: Changing symbol value: " ++ nm ++ " " ++ v_old ++ " -> " ++ v_new.

(** [values.remove(x)] on a set of ints, and [( *values,)[0]]. *)
Definition set_remove (x : pyval) (values : list Z) : res (list Z) :=
  match x with
  | VInt z =>
      if bool_decide (z ∈ values) then Ok (filter (fun y => y ≠ z) values)
      else Raise KeyError
  | VStr _ => Raise KeyError
  end.

Definition first_of (values : list Z) : res Z :=
  match values with
  | v :: _ => Ok v
  | [] => Raise IndexError
  end.

(** The choice of target and source, shared by the [EQUAL] and the
    [UNEQUAL] branch. *)
Definition tgt_src (v1 v2 : sym_id) : sym_id * sym_id :=
  if is_constant K v1 then (v2, v1) else (v1, v2).

(** Lines 128-141: a conjunct [(EQUAL, v1, v2)] with a constant side. *)
Definition fix_equal (v1 v2 : sym_id) (check : gset sym_id) : M (gset sym_id) :=
  (let '(tgt, src) := tgt_src v1 v2 in
   st <- get_uv ;;
   v_old <- lift (TRI_TO_STR (user_value st tgt)) ;;
   v_new <- lift (TRI_TO_STR (user_value st src)) ;;
   eprint (changing_line (name K tgt) v_old v_new) ;;
   do_set_value tgt (user_value st src) ;;
   ret (check ∪ {[tgt]}))%repair.

(** Lines 143-160: a conjunct [(UNEQUAL, v1, v2)] with a constant side. *)
Definition fix_unequal (v1 v2 : sym_id) (check : gset sym_id) : M (gset sym_id) :=
  (let '(tgt, src) := tgt_src v1 v2 in
   st <- get_uv ;;
   values <- lift (set_remove (user_value st src) [1; 2]) ;;
   value <- lift (first_of values) ;;
   v_old <- lift (TRI_TO_STR (user_value st tgt)) ;;
   v_new <- lift (TRI_TO_STR (VInt value)) ;;
   eprint (changing_line (name K tgt) v_old v_new) ;;
   do_set_value tgt (VInt value) ;;
   ret (check ∪ {[tgt]}))%repair.

(** Lines 162-164: the conjunct is a tuple the loop does not handle. *)
Definition complex_dependency (sym : sym_id) : M (gset sym_id) :=
  (eprint "error: Cannot fix dependencies: Complex dependency statements not suppoted" ;;
   eprint ("       On symbol: " ++ name K sym) ;;
   exit 1)%repair.

(** Lines 166-185: the conjunct is a symbol. *)
Definition fix_leaf (sym dep : sym_id) (check : gset sym_id) : M (gset sym_id) :=
  (st <- get_uv ;;
   sat <- lift (dep_satisfied st sym dep) ;;
   if sat then ret check
   else
     (if in_BOOL_TRISTATE (orig_type K dep) then ret tt
      else eprint "error: Cannot fix dependencies: Non-boolean and non-tristate dependency") ;;
     let value :=
       if bool_decide (orig_type K dep = TRISTATE) && bool_decide (orig_type K sym = TRISTATE)
       then user_value st sym
       else if bool_decide (orig_type K dep = TRISTATE) then VInt 1
       else VInt 2 in
     raise_it <- lift (py_gt value (user_value st dep)) ;;
     if raise_it then
       v_old <- lift (TRI_TO_STR (user_value st dep)) ;;
       v_new <- lift (TRI_TO_STR value) ;;
       eprint (changing_line (name K dep) v_old v_new) ;;
       do_set_value dep value ;;
       ret (check ∪ {[dep]})
     else ret check)%repair.

(** The body of [for dep in deps] (lines 127-185). *)
Definition fix_dep (sym : sym_id) (dep : expr) (check : gset sym_id) : M (gset sym_id) :=
  match dep with
  | ESym d => fix_leaf sym d check
  | ERel rel v1 v2 =>
      if bool_decide (rel = EQUAL) && (is_constant K v1 || is_constant K v2)
      then fix_equal v1 v2 check
      else if bool_decide (rel = UNEQUAL) && (is_constant K v1 || is_constant K v2)
      then fix_unequal v1 v2 check
      else complex_dependency sym
  | _ => complex_dependency sym
  end.

Fixpoint for_deps (sym : sym_id) (deps : list expr) (check : gset sym_id) : M (gset sym_id) :=
  match deps with
  | [] => ret check
  | dep :: rest => (check' <- fix_dep sym dep check ;; for_deps sym rest check')%repair
  end.

(** The body of [for sym in symbols] (lines 122-185). *)
Definition fix_sym (sym : sym_id) (check : gset sym_id) : M (gset sym_id) :=
  (st <- get_uv ;;
   met <- lift (deps_met st sym) ;;
   if met then ret check
   else for_deps sym (split_expr_AND (direct_dep K sym)) check)%repair.

Fixpoint for_syms (symbols : list sym_id) (check : gset sym_id) : M (gset sym_id) :=
  match symbols with
  | [] => ret check
  | sym :: rest => (check' <- fix_sym sym check ;; for_syms rest check')%repair
  end.

(** [try_fix_deps(symbols)].  [fuel] bounds the number of rounds of the
    [while] loop; [None] means that the loop was still running after
    [fuel] rounds. *)
Fixpoint try_fix_deps (fuel : nat) (symbols : list sym_id) (w : world)
  : option (res unit * world) :=
  match symbols with
  | [] => Some (Ok tt, w)
  | _ :: _ =>
      match fuel with
      | O => None
      | S fuel' =>
          match for_syms symbols ∅ w with
          | (Ok check, w') => try_fix_deps fuel' (set_order K check) w'
          | (Raise e, w') => Some (Raise e, w')
          end
      end
  end.

End Genconf.

Arguments World uv stderr : rename.

(** The iteration order of a set lists exactly the members of the set. *)
Definition set_order_ok (K : Kconfig) : Prop :=
  ∀ X : gset sym_id, set_order K X ≡ₚ elements X.

(** ** A concrete schema database

    Symbols are the entries of a table and are identified by their index.
    The resolver is the one of a schema in which every option has an
    unconditional prompt and no default, select or imply, with modules
    enabled: the tri-value of a bool or tristate option is the value
    assigned to it ([n] when there is none), every other option has
    tri-value [n], and the constants [n], [m], [y] have the tri-values
    [0], [1], [2]. *)
Module Table.

Record Symbol : Type := {
  sym_name : string;
  sym_orig_type : sym_type;
  sym_is_constant : bool;
  sym_direct_dep : expr
}.

(** The constant symbols [n], [m] and [y] open every table. *)
Definition n : sym_id := 0%nat.
Definition m : sym_id := 1%nat.
Definition y : sym_id := 2%nat.

Definition constant (nm : string) (t : sym_type) : Symbol :=
  {| sym_name := nm; sym_orig_type := t; sym_is_constant := true;
     sym_direct_dep := ESym y |}.

Definition option_ (nm : string) (t : sym_type) (dep : expr) : Symbol :=
  {| sym_name := nm; sym_orig_type := t; sym_is_constant := false;
     sym_direct_dep := dep |}.

Definition nmy : list Symbol :=
  [constant "n" TRISTATE; constant "m" TRISTATE; constant "y" TRISTATE].

Definition get (tbl : list Symbol) (s : sym_id) : Symbol :=
  default (constant EmptyString UNKNOWN) (tbl !! s).

Definition digit (c : ascii) : option Z :=
  let k := Z.of_N (N_of_ascii c) in
  if Z.leb 48 k && Z.leb k 57 then Some (k - 48) else None.

Fixpoint digits (acc : Z) (s : string) : option Z :=
  match s with
  | EmptyString => Some acc
  | String c rest =>
      match digit c with
      | Some d => digits (10 * acc + d) rest
      | None => None
      end
  end.

(** [int(s, base)] on strings of decimal digits; every other string is
    rejected. *)
Definition int_of_string (s : string) (base : Z) : option Z :=
  match s with
  | EmptyString => None
  | _ => digits 0 s
  end.

Definition resolved_tri (tbl : list Symbol) (st : store) (s : sym_id) : Z :=
  let x := get tbl s in
  if sym_is_constant x then
    if bool_decide (s = y) then 2 else if bool_decide (s = m) then 1 else 0
  else if in_BOOL_TRISTATE (sym_orig_type x) then
    match st !! s with
    | Some (VInt z) => z
    | _ => 0
    end
  else 0.

Definition resolved_str (tbl : list Symbol) (st : store) (s : sym_id) : string :=
  let x := get tbl s in
  if sym_is_constant x then sym_name x
  else if in_BOOL_TRISTATE (sym_orig_type x) then
    match TRI_TO_STR (VInt (resolved_tri tbl st s)) with
    | Ok v => v
    | Raise _ => EmptyString
    end
  else
    match st !! s with
    | Some (VStr v) => v
    | _ => EmptyString
    end.

Definition kconfig (tbl : list Symbol) : Kconfig :=
  {| name := fun s => sym_name (get tbl s);
     orig_type := fun s => sym_orig_type (get tbl s);
     is_constant := fun s => sym_is_constant (get tbl s);
     direct_dep := fun s => sym_direct_dep (get tbl s);
     tri_value := resolved_tri tbl;
     str_value := resolved_str tbl;
     type := fun _ s => sym_orig_type (get tbl s);
     py_int := int_of_string;
     set_order := elements |}.

End Table.

(** The inputs of the examples below. *)
Module Scenario.
Import Table.

(** Option [A] is number 3, the next entries follow. *)
Definition A : sym_id := 3%nat.
Definition B : sym_id := 4%nat.
Definition X : sym_id := 5%nat.

(** [A] assigned [y], nothing else assigned. *)
Definition only_A_yes : world := World {[ A := VInt 2 ]} [].

(** [A] assigned [m], nothing else assigned. *)
Definition only_A_mod : world := World {[ A := VInt 1 ]} [].

(** [A] assigned [y] and the string option [S] assigned ["abc"]. *)
Definition A_yes_S_abc : world := World {[ A := VInt 2; B := VStr "abc" ]} [].

(** [A] and [B] assigned [y]. *)
Definition both_yes : world := World {[ A := VInt 2; B := VInt 2 ]} [].

(** Booleans [A] and [B], each one the dependency of the other. *)
Definition two_cycle : Kconfig :=
  kconfig (nmy ++ [option_ "A" BOOL (ESym B); option_ "B" BOOL (ESym A)]).

(** [A] depends on [B = n], [B] is a tristate without dependencies. *)
Definition equal_n : Kconfig :=
  kconfig (nmy ++ [option_ "A" BOOL (ERel EQUAL B n); option_ "B" TRISTATE (ESym y)]).


(** [A] depends on [B != n]. *)
Definition unequal_n : Kconfig :=
  kconfig (nmy ++ [option_ "A" BOOL (ERel UNEQUAL B n); option_ "B" TRISTATE (ESym y)]).

(** [A] depends on [B != m]. *)
Definition unequal_m : Kconfig :=
  kconfig (nmy ++ [option_ "A" BOOL (ERel UNEQUAL B m); option_ "B" TRISTATE (ESym y)]).

(** [A] depends on [B != y]. *)
Definition unequal_y : Kconfig :=
  kconfig (nmy ++ [option_ "A" BOOL (ERel UNEQUAL B y); option_ "B" TRISTATE (ESym y)]).

(** [A] depends on [S = "x"], [S] is a string option, ["x"] a constant. *)
Definition equal_string : Kconfig :=
  kconfig (nmy ++ [option_ "A" BOOL (ERel EQUAL B X); option_ "S" STRING (ESym y);
                   constant "x" UNKNOWN]).

(** [A] depends on the string option [S]. *)
Definition string_leaf : Kconfig :=
  kconfig (nmy ++ [option_ "A" BOOL (ESym B); option_ "S" STRING (ESym y)]).

(** [A] depends on [y = m], a relation between two constants. *)
Definition constants_only : Kconfig :=
  kconfig (nmy ++ [option_ "A" BOOL (ERel EQUAL y m)]).

(** [A] depends on [B = C], a relation between two options. *)
Definition no_constant : Kconfig :=
  kconfig (nmy ++ [option_ "A" BOOL (ERel EQUAL B X); option_ "B" TRISTATE (ESym y);
                   option_ "C" TRISTATE (ESym y)]).

(** Tristate [A] depends on the tristate [B]. *)
Definition tristate_leaf : Kconfig :=
  kconfig (nmy ++ [option_ "A" TRISTATE (ESym B); option_ "B" TRISTATE (ESym y)]).

(** Tristate [A] depends on [!S], where [S] is a string option. *)
Definition not_string : Kconfig :=
  kconfig (nmy ++ [option_ "A" TRISTATE (ENot (ESym B)); option_ "S" STRING (ESym y)]).

(** [A] assigned [n] and the string option [S] assigned ["abc"]. *)
Definition A_no_S_abc : store := {[ A := VInt 0; B := VStr "abc" ]}.

(** A string option [S] (number 3) and an int option [N] (number 4),
    both without dependencies. *)
Definition typed_options : Kconfig :=
  kconfig (nmy ++ [option_ "S" STRING (ESym y); option_ "N" INT (ESym y)]).

End Scenario.

(** ** Statements about mutations *)

(** A mutation from [st] to [st'] lowers nothing: every option keeps the
    user value it had, or gets a tri-value above the effective value it
    had. *)
Definition not_lowered (K : Kconfig) (st st' : store) : Prop :=
  ∀ s : sym_id,
    st' !! s = st !! s ∨
    ∃ z z' : Z, user_value K st s = VInt z ∧ st' !! s = Some (VInt z') ∧ z < z'.

(** The conjunct is an [EQUAL] or [UNEQUAL] relation with a constant
    side: the two cases that lines 128 and 143 accept. *)
Definition constant_relation (K : Kconfig) (e : expr) : bool :=
  match e with
  | ERel rel v1 v2 =>
      (bool_decide (rel = EQUAL) || bool_decide (rel = UNEQUAL))
      && (is_constant K v1 || is_constant K v2)
  | _ => false
  end.

(** No option of the schema has such a conjunct. *)
Definition no_constant_relation (K : Kconfig) : Prop :=
  ∀ (s : sym_id) (e : expr),
    e ∈ split_expr_AND (direct_dep K s) → constant_relation K e = false.

(** The two lines printed before [exit(1)]. *)
Definition complex_dependency_lines (K : Kconfig) (sym : sym_id) : list string :=
  ["error: Cannot fix dependencies: Complex dependency statements not suppoted";
   "       On symbol: " ++ name K sym].

(** ** The rest of the script *)

(** Line 17 of [print_banner]: [f"-- {msg} ".ljust(100, '-')].
    [str.ljust(width, fillchar)] pads on the right up to [width] and
    returns the string itself when it is that long already. *)
Definition ljust (s : string) (width : nat) (fillchar : ascii) : string :=
  s ++ string_of_list_ascii (replicate (width - String.length s) fillchar).

Definition banner_msg (msg : string) : string :=
  ljust ("-- " ++ msg ++ " ") 100 "-"%char.

Declare Scope script_scope.
Delimit Scope script_scope with script.
Notation "x <- m ;; k" := (bind m (fun x => k))
  (at level 100, m at next level, right associativity) : script_scope.
Notation "m ;; k" := (bind m (fun _ => k))
  (at level 100, right associativity) : script_scope.

Section Driver.

Variable K : Kconfig.

Definition unmet_line (sym : sym_id) : string :=
  "warning: Unmet dependency for symbol " ++ name K sym.

(** [for sym in syms: eprint(f"warning: Unmet dependency for symbol
    {sym.name}")] (lines 111-112 and 218-219). *)
Fixpoint warn_each (syms : list sym_id) : M unit :=
  match syms with
  | [] => ret tt
  | sym :: rest => (eprint (unmet_line sym) ;; warn_each rest)%script
  end.

(** [warn_unmet_deps(kconf)], [symbols] being [kconf.syms.values()]. *)
Definition warn_unmet_deps (symbols : list sym_id) : M bool :=
  (st <- get_uv ;;
   syms <- lift (filter_unmet_deps K st symbols) ;;
   warn_each syms ;;
   ret (Nat.ltb 0 (length syms)))%script.

(** Lines 217-230 of [main]: the dependency check and the repair between
    loading the configuration and writing it.  [symbols] is
    [kconf.syms.values()] and [try_fix] is [args.try_fix_deps]; the
    banners, which go to standard output, are left out. *)
Definition main_check (try_fix : bool) (symbols : list sym_id) (fuel : nat)
    (w : world) : option (res unit * world) :=
  match (st <- get_uv ;;
         unmet <- lift (filter_unmet_deps K st symbols) ;;
         warn_each unmet ;;
         ret unmet)%script w with
  | (Raise e, w1) => Some (Raise e, w1)
  | (Ok unmet, w1) =>
      match unmet with
      | [] => Some (Ok tt, w1)
      | _ :: _ =>
          if try_fix then
            match try_fix_deps K fuel unmet w1 with
            | None => None
            | Some (Raise e, w2) => Some (Raise e, w2)
            | Some (Ok _, w2) =>
                match filter_unmet_deps K (uv w2) symbols with
                | Raise e => Some (Raise e, w2)
                | Ok [] => Some (Ok tt, w2)
                | Ok (_ :: _) =>
                    Some ((eprint "error: Could not fix dependencies, aborting" ;;
                           exit 1)%script w2)
                end
            end
          else
            Some (eprint "warning: Unmet dependencies need to be fixed manually" w1)
      end
  end.

End Driver.

(** ** Statements about the evaluator *)

(** The value is one of the tri-values [0], [1], [2]. *)
Definition is_tri (v : pyval) : bool :=
  match v with
  | VInt z => Z.leb 0 z && Z.leb z 2
  | VStr _ => false
  end.

(** The symbols an expression has as operands of [AND], [OR] and [NOT];
    the operands of a relation are compared, not evaluated. *)
Fixpoint expr_syms (e : expr) : list sym_id :=
  match e with
  | ESym s => [s]
  | EAnd a b | EOr a b => expr_syms a ++ expr_syms b
  | ENot a => expr_syms a
  | ERel _ _ _ => []
  end.

(** Every such symbol has a tri-value as effective value. *)
Definition tri_leaves (K : Kconfig) (st : store) (e : expr) : bool :=
  forallb (fun s => is_tri (user_value K st s)) (expr_syms e).

(** The tri-valued reading of an expression, without short-circuit:
    [AND] is the minimum, [OR] the maximum, [NOT x] is [2 - x]. *)
Fixpoint tri_reading (K : Kconfig) (st : store) (e : expr) : Z :=
  match e with
  | ESym s =>
      match user_value K st s with
      | VInt z => z
      | VStr _ => 0
      end
  | EAnd a b => Z.min (tri_reading K st a) (tri_reading K st b)
  | EOr a b => Z.max (tri_reading K st a) (tri_reading K st b)
  | ENot a => 2 - tri_reading K st a
  | ERel rel v1 v2 =>
      match rel_user_value K st rel v1 v2 with
      | VInt z => z
      | VStr _ => 0
      end
  end.

(** Some symbol of the expression holds a string. *)
Definition holds_str (K : Kconfig) (st : store) (e : expr) : Prop :=
  ∃ (s : sym_id) (x : string), s ∈ expr_syms e ∧ user_value K st s = VStr x.

(** The negation of a relation. *)
Definition rel_negate (rel : relop) : relop :=
  match rel with
  | EQUAL => UNEQUAL
  | UNEQUAL => EQUAL
  | LESS => GREATER_EQUAL
  | LESS_EQUAL => GREATER
  | GREATER => LESS_EQUAL
  | GREATER_EQUAL => LESS
  end.

(** ** Statements about runs *)

(** Every option has the user value it had, or a tri-value. *)
Definition only_tri_written (st st' : store) : Prop :=
  ∀ s : sym_id,
    st' !! s = st !! s ∨ ∃ z : Z, st' !! s = Some (VInt z) ∧ 0 ≤ z ≤ 2.

(** What one conjunct does: it prints [lines] and either leaves the user
    values alone, or prints at least one line, calls [set_value] once,
    with a tri-value and on a symbol that it puts into [check]. *)
Definition conjunct_step (K : Kconfig) (check : gset sym_id) (w : world)
    (r : res (gset sym_id)) (w' : world) : Prop :=
  ∃ lines : list string,
    stderr w' = (stderr w ++ lines)%list ∧
    ((uv w' = uv w ∧ ∀ c, r = Ok c → c = check) ∨
     (∃ (t : sym_id) (z : Z),
        0 ≤ z ≤ 2 ∧ lines ≠ [] ∧ r = Ok (check ∪ {[ t ]}) ∧
        uv w' = set_value K (uv w) t (VInt z))).

(** What holds of any stretch of a round: output is only added and no
    user value changes without output; only tri-values are written; and
    when the stretch returns, [check] has only grown and has every
    symbol whose user value changed. *)
Definition stretch (check : gset sym_id) (w : world)
    (r : res (gset sym_id)) (w' : world) : Prop :=
  (∃ lines : list string,
     stderr w' = (stderr w ++ lines)%list ∧ (lines = [] → uv w' = uv w)) ∧
  only_tri_written (uv w) (uv w') ∧
  (∀ c, r = Ok c → check ⊆ c ∧ ∀ s : sym_id, uv w' !! s ≠ uv w !! s → s ∈ c).

(** What a symbol can still be raised by: nothing assigned counts 3, an
    assigned [z] counts [2 - z]. *)
Definition slot (v : option pyval) : nat :=
  match v with
  | None => 3
  | Some (VInt z) => Z.to_nat (2 - z)
  | Some (VStr _) => 0
  end.

Definition debt (U : gset sym_id) (st : store) : nat :=
  sum_list_with (fun s => slot (st !! s)) (elements U).

(** A stretch of a round either changes neither [check] nor the user
    values, or lowers the debt and adds symbols of [U] to [check]. *)
Definition advance (U : gset sym_id) (check : gset sym_id) (w : world)
    (check' : gset sym_id) (w' : world) : Prop :=
  (check' = check ∧ uv w' = uv w) ∨
  ((debt U (uv w') < debt U (uv w))%nat ∧ check' ⊆ check ∪ U).

(** The options of [U] only have conjuncts that are bool or tristate
    options of [U], or that are no [EQUAL] or [UNEQUAL] relation with a
    constant side. *)
Definition leaf_closed (K : Kconfig) (U : gset sym_id) : Prop :=
  ∀ (s : sym_id) (e : expr),
    s ∈ U → e ∈ split_expr_AND (direct_dep K s) →
    constant_relation K e = false ∧
    ∀ d : sym_id, e = ESym d → d ∈ U ∧ in_BOOL_TRISTATE (orig_type K d) = true.

(** The [type] of a bool or tristate symbol is [BOOL] or its
    [orig_type] (a tristate counts as bool when modules are off). *)
Definition type_ok (K : Kconfig) (sym : sym_id) : Prop :=
  in_BOOL_TRISTATE (orig_type K sym) = true ∧
  ∀ st : store, type K st sym = BOOL ∨ type K st sym = orig_type K sym.

(** * Results *)

Lemma table_set_order_ok tbl : set_order_ok (Table.kconfig tbl).
Proof. intros X. reflexivity. Qed.

(** ** The evaluator *)

Section Evaluator.

Variable K : Kconfig.
Variable st : store.

Lemma py_min_int a b : py_min (VInt a) (VInt b) = Ok (VInt (Z.min a b)).
Proof.
  unfold py_min, py_lt; simpl.
  destruct (Z.ltb_spec b a); f_equal; f_equal; lia.
Qed.

Lemma py_max_int a b : py_max (VInt a) (VInt b) = Ok (VInt (Z.max a b)).
Proof.
  unfold py_max, py_gt, py_lt; simpl.
  destruct (Z.ltb_spec a b); f_equal; f_equal; lia.
Qed.

Lemma and_short_circuit e1 e2 :
  expr_user_value K st e1 = Ok (VInt 0) →
  expr_user_value K st (EAnd e1 e2) = Ok (VInt 0) ∧
  expr_reads K st (EAnd e1 e2) = expr_reads K st e1.
Proof.
  intros H1; simpl; rewrite H1; simpl. split; [done | apply app_nil_r].
Qed.

Lemma or_short_circuit e1 e2 :
  expr_user_value K st e1 = Ok (VInt 2) →
  expr_user_value K st (EOr e1 e2) = Ok (VInt 2) ∧
  expr_reads K st (EOr e1 e2) = expr_reads K st e1.
Proof.
  intros H1; simpl; rewrite H1; simpl. split; [done | apply app_nil_r].
Qed.

(** C7. When the first operand evaluates to the tri-value [a]:
    if the second evaluates to the tri-value [b], [AND] evaluates to
    [min a b] and [OR] to [max a b]; and when [a] is [n] ([AND]) or [y]
    ([OR]) the result is fixed whatever the second operand is (even one
    whose evaluation would raise) and no symbol of the second operand is
    read. *)
Theorem expr_user_value_and_or (e1 e2 : expr) (a : Z) :
  0 ≤ a ≤ 2 →
  expr_user_value K st e1 = Ok (VInt a) →
  (∀ b, 0 ≤ b ≤ 2 → expr_user_value K st e2 = Ok (VInt b) →
     expr_user_value K st (EAnd e1 e2) = Ok (VInt (Z.min a b)) ∧
     expr_user_value K st (EOr e1 e2) = Ok (VInt (Z.max a b))) ∧
  (a = 0 →
     expr_user_value K st (EAnd e1 e2) = Ok (VInt 0) ∧
     expr_reads K st (EAnd e1 e2) = expr_reads K st e1) ∧
  (a = 2 →
     expr_user_value K st (EOr e1 e2) = Ok (VInt 2) ∧
     expr_reads K st (EOr e1 e2) = expr_reads K st e1).
Proof.
  intros Ha H1. split; [| split].
  - intros b Hb H2. simpl. rewrite H1, H2. simpl. split.
    + destruct (Z.eqb_spec a 0) as [-> | Hne].
      * f_equal; f_equal; lia.
      * apply py_min_int.
    + destruct (Z.eqb_spec a 2) as [-> | Hne].
      * f_equal; f_equal; lia.
      * apply py_max_int.
  - intros ->. by apply and_short_circuit.
  - intros ->. by apply or_short_circuit.
Qed.

End Evaluator.

(** An operand that cannot be evaluated: [!A] where [A] holds a string. *)
Lemma expr_user_value_and_or_witness :
  let st : store := {[ Scenario.A := VStr "abc"; Scenario.B := VInt 1 ]} in
  expr_user_value Scenario.two_cycle st (ENot (ESym Scenario.A)) = Raise TypeError ∧
  expr_user_value Scenario.two_cycle st
    (EAnd (ESym Table.n) (ENot (ESym Scenario.A))) = Ok (VInt 0) ∧
  expr_reads Scenario.two_cycle st
    (EAnd (ESym Table.n) (ENot (ESym Scenario.A))) = [Table.n] ∧
  expr_user_value Scenario.two_cycle st
    (EAnd (ESym Table.y) (ESym Scenario.B)) = Ok (VInt 1).
Proof.
  intros st.
  split; [reflexivity |].
  pose proof (expr_user_value_and_or Scenario.two_cycle st
                (ESym Table.n) (ENot (ESym Scenario.A)) 0
                ltac:(lia) eq_refl) as (_ & Hand & _).
  destruct (Hand eq_refl) as [Hv Hr].
  split; [exact Hv |]. split; [exact Hr |].
  pose proof (expr_user_value_and_or Scenario.two_cycle st
                (ESym Table.y) (ESym Scenario.B) 2
                ltac:(lia) eq_refl) as (Hmin & _ & _).
  exact (proj1 (Hmin 1 ltac:(lia) eq_refl)).
Defined.

(** ** The dependency checker *)

Lemma deps_met_value_n (K : Kconfig) (st : store) (sym : sym_id) :
  user_value K st sym = VInt 0 →
  deps_met K st sym = Ok true.
Proof.
  intros H. unfold deps_met. rewrite H. reflexivity.
Qed.

(** C8, as amended.  An option whose effective value is the tri-value
    [n], which an option of any kind without assigned value is when it
    resolves to [n], has its dependencies met, whatever its dependency
    expression is and even when evaluating that expression would raise.
    An option that is assigned a string, the only values an option of
    another kind can be assigned, is not checked at all: the comparison
    [value > 0] raises [TypeError]. *)
Theorem deps_met_when_off (K : Kconfig) (st : store) (sym : sym_id) :
  (user_value K st sym = VInt 0 → deps_met K st sym = Ok true) ∧
  (st !! sym = None → tri_value K st sym = 0 → deps_met K st sym = Ok true) ∧
  (∀ x : string, st !! sym = Some (VStr x) → deps_met K st sym = Raise TypeError).
Proof.
  split; [apply deps_met_value_n |]. split.
  - intros Hnone Htri. apply deps_met_value_n. unfold user_value. by rewrite Hnone, Htri.
  - intros x Hx. unfold deps_met, user_value. by rewrite Hx.
Qed.

(** Tristate [A] is assigned [n] and depends on [!S], which cannot be
    evaluated because [S] holds a string: the check of [A] returns true
    all the same, the check of [S] raises. *)
Lemma deps_met_when_off_witness :
  expr_user_value Scenario.not_string Scenario.A_no_S_abc
    (direct_dep Scenario.not_string Scenario.A) = Raise TypeError ∧
  user_value Scenario.not_string Scenario.A_no_S_abc Scenario.A = VInt 0 ∧
  deps_met Scenario.not_string Scenario.A_no_S_abc Scenario.A = Ok true ∧
  deps_met Scenario.not_string Scenario.A_no_S_abc Scenario.B = Raise TypeError.
Proof.
  split; [reflexivity |]. split; [reflexivity |].
  split.
  - exact (proj1 (deps_met_when_off Scenario.not_string Scenario.A_no_S_abc Scenario.A)
             eq_refl).
  - exact (proj2 (proj2 (deps_met_when_off Scenario.not_string Scenario.A_no_S_abc
                           Scenario.B)) "abc" eq_refl).
Defined.

(** C8, as stated, fails.  A string option assigned the empty string and
    an int option assigned ["0"] are in their minimal state, and their
    check raises [TypeError] instead of returning true. *)
Lemma deps_met_minimal_string_raises :
  orig_type Scenario.typed_options Scenario.A = STRING ∧
  deps_met Scenario.typed_options {[ Scenario.A := VStr EmptyString ]} Scenario.A =
    Raise TypeError ∧
  orig_type Scenario.typed_options Scenario.B = INT ∧
  deps_met Scenario.typed_options {[ Scenario.B := VStr "0" ]} Scenario.B =
    Raise TypeError.
Proof. repeat split. Qed.

(** ** The repair loop: rounds that change nothing *)

(** A run that returns within [fuel] rounds returns the same with more. *)
Lemma try_fix_deps_more_fuel (K : Kconfig) (fuel : nat) :
  ∀ symbols w out,
    try_fix_deps K fuel symbols w = Some out →
    try_fix_deps K (S fuel) symbols w = Some out.
Proof.
  induction fuel as [| fuel IH]; intros [| s rest] w out; cbn [try_fix_deps];
    try done.
  destruct (for_syms K (s :: rest) ∅ w) as [[check | e] w1]; [| done].
  apply IH.
Qed.

Section Rounds.

Variable K : Kconfig.
Hypothesis order_ok : set_order_ok K.

Lemma set_order_empty : set_order K ∅ = [].
Proof.
  apply Permutation_nil_r. rewrite (order_ok ∅), elements_empty. done.
Qed.

Lemma set_order_singleton (s : sym_id) : set_order K {[ s ]} = [s].
Proof.
  apply Permutation_singleton_r. rewrite (order_ok {[ s ]}), elements_singleton. done.
Qed.

Lemma fix_sym_met (sym : sym_id) (check : gset sym_id) (w : world) :
  deps_met K (uv w) sym = Ok true →
  fix_sym K sym check w = (Ok check, w).
Proof.
  intros H. unfold fix_sym, bind, get_uv, lift. rewrite H. reflexivity.
Qed.

Lemma for_syms_all_met (symbols : list sym_id) (check : gset sym_id) (w : world) :
  Forall (λ s, deps_met K (uv w) s = Ok true) symbols →
  for_syms K symbols check w = (Ok check, w).
Proof.
  induction 1 as [| s rest Hs _ IH]; simpl; [done |].
  unfold bind. rewrite (fix_sym_met _ _ _ Hs). exact IH.
Qed.

(** C9. When the dependencies of every option handed to the repair are
    met, the repair returns after its first round (one round of fuel is
    enough), and the world it returns is the world it started in: no
    user value changed, nothing was printed. *)
Theorem try_fix_deps_satisfied (fuel : nat) (symbols : list sym_id) (w : world) :
  Forall (λ s, deps_met K (uv w) s = Ok true) symbols →
  try_fix_deps K (S fuel) symbols w = Some (Ok tt, w).
Proof.
  intros Hmet. destruct symbols as [| s rest]; [done |].
  cbn [try_fix_deps]. rewrite (for_syms_all_met _ _ _ Hmet), set_order_empty.
  by destruct fuel.
Qed.

(** C10. Booleans [A] and [B] depend on each other, [A] is assigned [y]
    and [B] is [n]: [A] is the one violation, one round is not enough,
    and the repair returns within two rounds, having raised [B] to [y]
    in the first round and changed nothing in the second. *)
Theorem try_fix_deps_two_cycle (A B : sym_id) (w : world) :
  A ≠ B →
  orig_type K A = BOOL → orig_type K B = BOOL →
  (∀ st, type K st A = BOOL) → (∀ st, type K st B = BOOL) →
  direct_dep K A = ESym B → direct_dep K B = ESym A →
  uv w !! A = Some (VInt 2) →
  user_value K (uv w) B = VInt 0 →
  filter_unmet_deps K (uv w) [A; B] = Ok [A] ∧
  try_fix_deps K 1 [A] w = None ∧
  try_fix_deps K 2 [A] w =
    Some (Ok tt,
          World (<[B := VInt 2]> (uv w))
                (stderr w ++ [changing_line (name K B) "n" "y"])).
Proof.
  intros Hne HoA HoB HtA HtB HdA HdB HA HB.
  assert (HuA : user_value K (uv w) A = VInt 2) by (unfold user_value; by rewrite HA).
  assert (HmA : deps_met K (uv w) A = Ok false).
  { unfold deps_met. rewrite HuA, HtA, HdA. simpl. rewrite HB. reflexivity. }
  assert (HmB : deps_met K (uv w) B = Ok true) by (by apply deps_met_value_n).
  assert (Hset : set_value K (uv w) B (VInt 2) = <[B := VInt 2]> (uv w)).
  { unfold set_value, value_valid. rewrite HoB. simpl.
    rewrite bool_decide_eq_false_2; [done |].
    intros Heq. unfold user_value in HB. rewrite Heq in HB. discriminate. }
  assert (Hround : for_syms K [A] ∅ w =
            (Ok {[ B ]},
             World (<[B := VInt 2]> (uv w))
                   (stderr w ++ [changing_line (name K B) "n" "y"]))).
  { simpl. unfold bind at 1. unfold fix_sym, bind, get_uv, lift. rewrite HmA, HdA.
    simpl. unfold bind, fix_leaf, bind, get_uv, lift, dep_satisfied.
    rewrite HtA, HuA, HB, HoB. simpl.
    unfold ret, eprint, do_set_value. simpl. rewrite Hset.
    by rewrite (left_id_L ∅ (∪)). }
  set (w1 := World (<[B := VInt 2]> (uv w))
                   (stderr w ++ [changing_line (name K B) "n" "y"])) in *.
  assert (HmB1 : deps_met K (uv w1) B = Ok true).
  { unfold deps_met, user_value. rewrite HtB, HdB. simpl.
    rewrite lookup_insert_eq. simpl. unfold user_value.
    rewrite lookup_insert_ne by done. rewrite HA. reflexivity. }
  split; [| split].
  - simpl. rewrite HoA, HoB, HmA, HmB. reflexivity.
  - cbn [try_fix_deps]. rewrite Hround, set_order_singleton. reflexivity.
  - cbn [try_fix_deps]. rewrite Hround, set_order_singleton.
    rewrite (for_syms_all_met [B] ∅ w1) by (constructor; [exact HmB1 | constructor]).
    rewrite set_order_empty. reflexivity.
Qed.

End Rounds.

Lemma try_fix_deps_satisfied_witness :
  Forall (λ s, deps_met Scenario.two_cycle (uv Scenario.both_yes) s = Ok true)
         [Scenario.A; Scenario.B] ∧
  try_fix_deps Scenario.two_cycle 1 [Scenario.A; Scenario.B] Scenario.both_yes =
    Some (Ok tt, Scenario.both_yes).
Proof.
  assert (H : Forall (λ s, deps_met Scenario.two_cycle (uv Scenario.both_yes) s = Ok true)
                     [Scenario.A; Scenario.B]).
  { repeat constructor. }
  split; [exact H |].
  exact (try_fix_deps_satisfied Scenario.two_cycle (table_set_order_ok _)
           0 [Scenario.A; Scenario.B] Scenario.both_yes H).
Defined.

Lemma try_fix_deps_two_cycle_witness :
  try_fix_deps Scenario.two_cycle 1 [Scenario.A] Scenario.only_A_yes = None ∧
  try_fix_deps Scenario.two_cycle 2 [Scenario.A] Scenario.only_A_yes =
    Some (Ok tt,
          World (<[Scenario.B := VInt 2]> {[ Scenario.A := VInt 2 ]})
                ["warning: Changing symbol value: B n -> y"]).
Proof.
  refine (proj2 (try_fix_deps_two_cycle Scenario.two_cycle (table_set_order_ok _)
                   Scenario.A Scenario.B Scenario.only_A_yes _ _ _ _ _ _ _ _ _));
    try reflexivity.
  unfold Scenario.A, Scenario.B. lia.
Defined.

(** ** The repair loop: what a mutation may do *)

Section Mutations.

Variable K : Kconfig.

Lemma set_value_int (st : store) (sym : sym_id) (z : Z) :
  set_value K st sym (VInt z) = st ∨
  set_value K st sym (VInt z) = <[sym := VInt z]> st.
Proof.
  unfold set_value. simpl.
  destruct (in_BOOL_TRISTATE (orig_type K sym));
    case_bool_decide; auto; destruct (value_valid K sym (VInt z)); auto.
Qed.

Lemma TRI_TO_STR_Ok (v : pyval) (s : string) :
  TRI_TO_STR v = Ok s → ∃ z, v = VInt z ∧ 0 ≤ z ≤ 2.
Proof.
  destruct v as [z | x]; [| discriminate].
  destruct z as [| p | p]; [| | discriminate].
  - intros _. exists 0. split; [done | lia].
  - destruct p as [p | p |]; try destruct p; try discriminate; intros _.
    + exists 2. split; [done | lia].
    + exists 1. split; [done | lia].
Qed.

Lemma not_lowered_refl (st : store) : not_lowered K st st.
Proof. intros s. by left. Qed.

Lemma not_lowered_insert (st : store) (dep : sym_id) (a b : Z) :
  user_value K st dep = VInt b → b < a →
  not_lowered K st (<[dep := VInt a]> st).
Proof.
  intros Hb Hlt s. destruct (decide (s = dep)) as [-> | Hne].
  - right. exists b, a. by rewrite lookup_insert_eq.
  - left. by rewrite lookup_insert_ne.
Qed.

(** A symbol conjunct changes a user value only upwards. *)
Lemma fix_leaf_not_lowered (sym dep : sym_id) (check : gset sym_id) (w : world)
    (r : res (gset sym_id)) (w' : world) :
  fix_leaf K sym dep check w = (r, w') →
  not_lowered K (uv w) (uv w').
Proof.
  unfold fix_leaf, bind, get_uv, lift, ret.
  destruct (dep_satisfied K (uv w) sym dep) as [[|] | e];
    try (intros [= <- <-]; apply not_lowered_refl).
  set (value := if bool_decide (orig_type K dep = TRISTATE)
                   && bool_decide (orig_type K sym = TRISTATE)
                then user_value K (uv w) sym
                else if bool_decide (orig_type K dep = TRISTATE) then VInt 1 else VInt 2).
  set (w0 := snd ((if in_BOOL_TRISTATE (orig_type K dep) then (λ w, (Ok tt, w))
                   else eprint "error: Cannot fix dependencies: Non-boolean and non-tristate dependency") w)).
  assert (Huv : uv w0 = uv w).
  { unfold w0. by destruct (in_BOOL_TRISTATE (orig_type K dep)). }
  assert (Hstep : ∀ (k : unit → M (gset sym_id)),
            (match (if in_BOOL_TRISTATE (orig_type K dep) then (λ w, (Ok tt, w))
                    else eprint "error: Cannot fix dependencies: Non-boolean and non-tristate dependency") w
             with (Ok a, w1) => k a w1 | (Raise e, w1) => (Raise e, w1) end) = k tt w0).
  { intros k. unfold w0. by destruct (in_BOOL_TRISTATE (orig_type K dep)). }
  rewrite Hstep. clear Hstep.
  destruct (py_gt value (user_value K (uv w) dep)) as [[|] | e] eqn:Hgt;
    try (intros [= <- <-]; rewrite Huv; apply not_lowered_refl).
  destruct (TRI_TO_STR (user_value K (uv w) dep)) as [v_old | e] eqn:Hold;
    try (intros [= <- <-]; rewrite Huv; apply not_lowered_refl).
  destruct (TRI_TO_STR value) as [v_new | e] eqn:Hnew;
    try (intros [= <- <-]; rewrite Huv; apply not_lowered_refl).
  apply TRI_TO_STR_Ok in Hold as (b & Hb & _).
  apply TRI_TO_STR_Ok in Hnew as (a & Ha & _).
  rewrite Ha, Hb in Hgt. unfold py_gt, py_lt in Hgt.
  injection Hgt as Hlt. apply Z.ltb_lt in Hlt.
  unfold eprint, do_set_value. simpl. intros [= <- <-]. simpl.
  rewrite Huv, Ha.
  destruct (set_value_int (uv w) dep a) as [-> | ->].
  - apply not_lowered_refl.
  - by apply (not_lowered_insert _ _ _ b).
Qed.

Lemma complex_dependency_run (sym : sym_id) (w : world) :
  complex_dependency K sym w =
    (Raise (SystemExit 1),
     World (uv w) (stderr w ++ complex_dependency_lines K sym)).
Proof.
  unfold complex_dependency, bind, eprint, exit, complex_dependency_lines. simpl.
  by rewrite <- app_assoc.
Qed.

Lemma fix_dep_not_lowered (sym : sym_id) (dep : expr) (check : gset sym_id)
    (w : world) (r : res (gset sym_id)) (w' : world) :
  constant_relation K dep = false →
  fix_dep K sym dep check w = (r, w') →
  not_lowered K (uv w) (uv w').
Proof.
  intros Hc. destruct dep as [d | a b | a b | a | rel v1 v2]; simpl.
  - apply fix_leaf_not_lowered.
  - rewrite complex_dependency_run. intros [= <- <-]. apply not_lowered_refl.
  - rewrite complex_dependency_run. intros [= <- <-]. apply not_lowered_refl.
  - rewrite complex_dependency_run. intros [= <- <-]. apply not_lowered_refl.
  - simpl in Hc.
    destruct (bool_decide (rel = EQUAL)), (bool_decide (rel = UNEQUAL)),
      (is_constant K v1 || is_constant K v2); simpl in *; try discriminate;
      rewrite complex_dependency_run; intros [= <- <-]; apply not_lowered_refl.
Qed.

Lemma for_deps_not_lowered (sym : sym_id) (deps : list expr) :
  Forall (λ e, constant_relation K e = false) deps →
  ∀ check w r w',
    for_deps K sym deps check w = (r, w') →
    rtc (not_lowered K) (uv w) (uv w').
Proof.
  induction 1 as [| dep rest Hdep _ IH]; intros check w r w'; simpl.
  - intros [= <- <-]. apply rtc_refl.
  - unfold bind. destruct (fix_dep K sym dep check w) as [[c1 | e] w1] eqn:Hfix.
    + intros Hrest. eapply rtc_l; [| by eapply IH].
      by eapply fix_dep_not_lowered.
    + intros [= <- <-]. apply rtc_once. by eapply fix_dep_not_lowered.
Qed.

Section Whole_run.

Hypothesis schema : no_constant_relation K.

Lemma fix_sym_not_lowered (sym : sym_id) (check : gset sym_id) (w : world)
    (r : res (gset sym_id)) (w' : world) :
  fix_sym K sym check w = (r, w') →
  rtc (not_lowered K) (uv w) (uv w').
Proof.
  unfold fix_sym, bind, get_uv, lift, ret.
  destruct (deps_met K (uv w) sym) as [[|] | e];
    try (intros [= <- <-]; apply rtc_refl).
  apply for_deps_not_lowered. apply Forall_forall. intros e He. by eapply schema.
Qed.

Lemma for_syms_not_lowered (symbols : list sym_id) :
  ∀ check w r w',
    for_syms K symbols check w = (r, w') →
    rtc (not_lowered K) (uv w) (uv w').
Proof.
  induction symbols as [| sym rest IH]; intros check w r w'; simpl.
  - intros [= <- <-]. apply rtc_refl.
  - unfold bind. destruct (fix_sym K sym check w) as [[c1 | e] w1] eqn:Hfix.
    + intros Hrest. etrans; [by eapply fix_sym_not_lowered | by eapply IH].
    + intros [= <- <-]. by eapply fix_sym_not_lowered.
Qed.

Lemma try_fix_deps_not_lowered (fuel : nat) :
  ∀ symbols w r w',
    try_fix_deps K fuel symbols w = Some (r, w') →
    rtc (not_lowered K) (uv w) (uv w').
Proof.
  induction fuel as [| fuel IH]; intros [| s rest] w r w'; cbn [try_fix_deps];
    try (intros [= <- <-]; apply rtc_refl); try discriminate.
  destruct (for_syms K (s :: rest) ∅ w) as [[c1 | e] w1] eqn:Hround.
  - intros Hnext. etrans; [by eapply for_syms_not_lowered | by eapply IH].
  - intros [= <- <-]. by eapply for_syms_not_lowered.
Qed.

End Whole_run.

(** C1, as amended.  A mutation made for a symbol conjunct never lowers:
    every option keeps its user value, or the conjunct gets a tri-value
    above its prior effective value.  Hence, on a schema in which no
    conjunct is an [EQUAL] or [UNEQUAL] relation with a constant side,
    every run of the repair, however it ends, goes through mutations
    that lower nothing. *)
Theorem leaf_mutations_never_lower :
  (∀ sym dep check w r w',
     fix_dep K sym (ESym dep) check w = (r, w') →
     not_lowered K (uv w) (uv w')) ∧
  (no_constant_relation K →
   ∀ fuel symbols w r w',
     try_fix_deps K fuel symbols w = Some (r, w') →
     rtc (not_lowered K) (uv w) (uv w')).
Proof.
  split.
  - intros sym dep check w r w'. apply fix_leaf_not_lowered.
  - intros schema fuel symbols w r w'. by apply try_fix_deps_not_lowered.
Qed.

End Mutations.

Lemma tristate_leaf_no_constant_relation :
  no_constant_relation Scenario.tristate_leaf.
Proof.
  intros s e.
  do 5 (destruct s as [| s];
        [simpl; intros He; apply list_elem_of_singleton in He as ->; reflexivity |]).
  simpl. intros He. apply list_elem_of_singleton in He as ->. reflexivity.
Qed.

(** Tristate [A] is [m] and depends on the tristate [B], which is [n]:
    the repair gives [B] the value [m]. *)
Lemma leaf_mutations_never_lower_witness :
  no_constant_relation Scenario.tristate_leaf ∧
  try_fix_deps Scenario.tristate_leaf 2 [Scenario.A] Scenario.only_A_mod =
    Some (Ok tt,
          World (<[Scenario.B := VInt 1]> {[ Scenario.A := VInt 1 ]})
                ["warning: Changing symbol value: B n -> m"]) ∧
  rtc (not_lowered Scenario.tristate_leaf)
      {[ Scenario.A := VInt 1 ]}
      (<[Scenario.B := VInt 1]> {[ Scenario.A := VInt 1 ]}).
Proof.
  assert (Hrun : try_fix_deps Scenario.tristate_leaf 2 [Scenario.A] Scenario.only_A_mod =
    Some (Ok tt,
          World (<[Scenario.B := VInt 1]> {[ Scenario.A := VInt 1 ]})
                ["warning: Changing symbol value: B n -> m"])) by (vm_compute; reflexivity).
  split; [exact tristate_leaf_no_constant_relation |].
  split; [exact Hrun |].
  exact (proj2 (leaf_mutations_never_lower Scenario.tristate_leaf)
           tristate_leaf_no_constant_relation _ _ _ _ _ Hrun).
Defined.

(** C1, as stated, fails.  [A] is [y] and depends on [B = n]; the
    tristate [B] is [y].  The repair assigns [n] to [B]. *)
Lemma equal_n_lowers_target :
  ∃ w' : world,
    try_fix_deps Scenario.equal_n 2 [Scenario.A] Scenario.both_yes = Some (Ok tt, w') ∧
    user_value Scenario.equal_n (uv Scenario.both_yes) Scenario.B = VInt 2 ∧
    user_value Scenario.equal_n (uv w') Scenario.B = VInt 0 ∧
    ¬ not_lowered Scenario.equal_n (uv Scenario.both_yes) (uv w').
Proof.
  eexists. split; [vm_compute; reflexivity |].
  split; [reflexivity |]. split; [reflexivity |].
  intros H. destruct (H Scenario.B) as [Heq | (z & z' & Hz & Hz' & Hlt)].
  - vm_compute in Heq. discriminate.
  - vm_compute in Hz, Hz'. injection Hz as <-. injection Hz' as <-. lia.
Qed.

(** ** The repair loop: relations *)

Section Relations.

Variable K : Kconfig.

Lemma for_deps_app (sym : sym_id) (pre post : list expr) :
  ∀ check w,
    for_deps K sym (pre ++ post) check w =
      bind (for_deps K sym pre check) (for_deps K sym post) w.
Proof.
  induction pre as [| d pre IH]; intros check w; simpl; [done |].
  unfold bind in *. destruct (fix_dep K sym d check w) as [[c | e] w1]; [| done].
  apply IH.
Qed.

Lemma for_syms_app (before after : list sym_id) :
  ∀ check w,
    for_syms K (before ++ after) check w =
      bind (for_syms K before check) (for_syms K after) w.
Proof.
  induction before as [| s before IH]; intros check w; simpl; [done |].
  unfold bind in *. destruct (fix_sym K s check w) as [[c | e] w1]; [| done].
  apply IH.
Qed.

Lemma fix_dep_unsupported_relation (sym : sym_id) (rel : relop) (v1 v2 : sym_id) :
  (rel ≠ EQUAL ∧ rel ≠ UNEQUAL) ∨ (is_constant K v1 = false ∧ is_constant K v2 = false) →
  ∀ check, fix_dep K sym (ERel rel v1 v2) check = complex_dependency K sym.
Proof.
  intros Hshape check. revert Hshape.
  intros [[Heq Hne] | [H1 H2]]; simpl.
  - by rewrite !bool_decide_eq_false_2.
  - rewrite H1, H2. simpl. by rewrite !andb_false_r.
Qed.

(** The relations the repair rejects.  A relation whose operator is
    neither [EQUAL] nor [UNEQUAL], or none of whose sides is a constant,
    stops the repair:
    the conjunct prints the error and the name of the violating option
    and exits with status 1, without touching a user value; and so does
    the whole repair when a round, started on [before ++ sym :: rest] in
    the world [w], comes to the violating option [sym] and to such a
    conjunct of it. *)
Theorem unsupported_relation_aborts (sym : sym_id) (rel : relop) (v1 v2 : sym_id) :
  (rel ≠ EQUAL ∧ rel ≠ UNEQUAL) ∨ (is_constant K v1 = false ∧ is_constant K v2 = false) →
  (∀ check w,
     fix_dep K sym (ERel rel v1 v2) check w =
       (Raise (SystemExit 1),
        World (uv w) (stderr w ++ complex_dependency_lines K sym))) ∧
  (∀ (fuel : nat) (before rest : list sym_id) (pre post : list expr)
     (w w1 w2 : world) (c1 c2 : gset sym_id),
     for_syms K before ∅ w = (Ok c1, w1) →
     deps_met K (uv w1) sym = Ok false →
     split_expr_AND (direct_dep K sym) = (pre ++ ERel rel v1 v2 :: post)%list →
     for_deps K sym pre c1 w1 = (Ok c2, w2) →
     try_fix_deps K (S fuel) (before ++ sym :: rest)%list w =
       Some (Raise (SystemExit 1),
             World (uv w2) (stderr w2 ++ complex_dependency_lines K sym))).
Proof.
  intros Hshape.
  assert (Hdep : ∀ check w,
     fix_dep K sym (ERel rel v1 v2) check w =
       (Raise (SystemExit 1),
        World (uv w) (stderr w ++ complex_dependency_lines K sym))).
  { intros check w.
    by rewrite (fix_dep_unsupported_relation _ _ _ _ Hshape), complex_dependency_run. }
  split; [exact Hdep |].
  intros fuel before rest pre post w w1 w2 c1 c2 Hbefore Hmet Hsplit Hpre.
  assert (Hround : for_syms K (before ++ sym :: rest)%list ∅ w =
            (Raise (SystemExit 1),
             World (uv w2) (stderr w2 ++ complex_dependency_lines K sym))).
  { rewrite for_syms_app. unfold bind at 1. rewrite Hbefore.
    cbn [for_syms]. unfold bind at 1.
    unfold fix_sym, bind at 1 2, get_uv, lift. rewrite Hmet, Hsplit, for_deps_app.
    unfold bind at 1. rewrite Hpre. cbn [for_deps]. unfold bind at 1.
    by rewrite Hdep. }
  destruct before; cbn [app try_fix_deps]; cbn [app] in Hround; by rewrite Hround.
Qed.

End Relations.

(** [A] is [y] and depends on [B = C]; [B] is [y], [C] is [n]. *)
Lemma unsupported_relation_aborts_witness :
  (is_constant Scenario.no_constant Scenario.B = false ∧
   is_constant Scenario.no_constant Scenario.X = false) ∧
  deps_met Scenario.no_constant (uv Scenario.both_yes) Scenario.A = Ok false ∧
  try_fix_deps Scenario.no_constant 1 [Scenario.A] Scenario.both_yes =
    Some (Raise (SystemExit 1),
          World (uv Scenario.both_yes)
                ["error: Cannot fix dependencies: Complex dependency statements not suppoted";
                 "       On symbol: A"]).
Proof.
  split; [split; reflexivity |]. split; [reflexivity |].
  exact (proj2 (unsupported_relation_aborts Scenario.no_constant
                  Scenario.A EQUAL Scenario.B Scenario.X
                  (or_intror (conj eq_refl eq_refl)))
           0%nat [] [] [] [] Scenario.both_yes Scenario.both_yes Scenario.both_yes ∅ ∅
           eq_refl eq_refl eq_refl eq_refl).
Defined.

(** C2: the code does not do what the claim says.  [A] is [y] and
    depends on [y = m], a relation between two constants.  The guard of
    line 128 accepts it, the constant [m] is taken as the target and is
    assigned [y]; the repair does not stop, it returns normally, and
    [A] is as violated as before. *)
Theorem both_constants_not_rejected :
  direct_dep Scenario.constants_only Scenario.A = ERel EQUAL Table.y Table.m ∧
  is_constant Scenario.constants_only Table.y = true ∧
  is_constant Scenario.constants_only Table.m = true ∧
  deps_met Scenario.constants_only (uv Scenario.only_A_yes) Scenario.A = Ok false ∧
  try_fix_deps Scenario.constants_only 2 [Scenario.A] Scenario.only_A_yes =
    Some (Ok tt,
          World (<[Table.m := VInt 2]> (uv Scenario.only_A_yes))
                ["warning: Changing symbol value: m m -> y"]) ∧
  deps_met Scenario.constants_only (<[Table.m := VInt 2]> (uv Scenario.only_A_yes))
    Scenario.A = Ok false.
Proof.
  repeat split; vm_compute; reflexivity.
Qed.

Section Equal.

Variable K : Kconfig.


Lemma set_value_valid_int (st : store) (sym : sym_id) (z : Z) :
  value_valid K sym (VInt z) = true →
  set_value K st sym (VInt z) = <[sym := VInt z]> st.
Proof.
  intros Hvalid. unfold set_value. simpl.
  replace (if in_BOOL_TRISTATE (orig_type K sym) then VInt z else VInt z)
    with (VInt z) by (by destruct (in_BOOL_TRISTATE _)).
  rewrite Hvalid. case_bool_decide as Heq; [| done].
  symmetry. by apply insert_id.
Qed.



End Equal.



(** ** The repair loop: runs that end badly *)

(** C3: the code does not do what the claim says.  [A] is [y] and
    depends on the string option [S], which has no value: the conjunct
    is not satisfied and is neither bool nor tristate.  The repair
    prints the error and goes on: it tries to give [S] the value [y]
    (which [set_value] refuses) and returns normally. *)
Theorem non_tristate_leaf_not_aborted :
  orig_type Scenario.string_leaf Scenario.B = STRING ∧
  deps_met Scenario.string_leaf (uv Scenario.only_A_yes) Scenario.A = Ok false ∧
  dep_satisfied Scenario.string_leaf (uv Scenario.only_A_yes) Scenario.A Scenario.B = Ok false ∧
  ∀ fuel : nat,
    try_fix_deps Scenario.string_leaf (S (S fuel)) [Scenario.A] Scenario.only_A_yes =
      Some (Ok tt,
            World (uv Scenario.only_A_yes)
                  ["error: Cannot fix dependencies: Non-boolean and non-tristate dependency";
                   "warning: Changing symbol value: S n -> y"]).
Proof.
  split; [reflexivity |]. split; [reflexivity |]. split; [reflexivity |].
  intros fuel.
  change (try_fix_deps Scenario.string_leaf (S (S fuel)) [Scenario.A] Scenario.only_A_yes)
    with (match for_syms Scenario.string_leaf [Scenario.A] ∅ Scenario.only_A_yes with
          | (Ok check, w') =>
              try_fix_deps Scenario.string_leaf (S fuel)
                (set_order Scenario.string_leaf check) w'
          | (Raise e, w') => Some (Raise e, w')
          end).
  replace (for_syms Scenario.string_leaf [Scenario.A] ∅ Scenario.only_A_yes)
    with (Ok ({[ Scenario.B ]} : gset sym_id),
          World (uv Scenario.only_A_yes)
                ["error: Cannot fix dependencies: Non-boolean and non-tristate dependency";
                 "warning: Changing symbol value: S n -> y"])
    by (vm_compute; reflexivity).
  replace (set_order Scenario.string_leaf {[ Scenario.B ]}) with [Scenario.B]
    by (vm_compute; reflexivity).
  cbn [try_fix_deps].
  replace (for_syms Scenario.string_leaf [Scenario.B] ∅
             (World (uv Scenario.only_A_yes)
                ["error: Cannot fix dependencies: Non-boolean and non-tristate dependency";
                 "warning: Changing symbol value: S n -> y"]))
    with (Ok (∅ : gset sym_id),
          World (uv Scenario.only_A_yes)
                ["error: Cannot fix dependencies: Non-boolean and non-tristate dependency";
                 "warning: Changing symbol value: S n -> y"])
    by (vm_compute; reflexivity).
  replace (set_order Scenario.string_leaf ∅) with (@nil sym_id) by (vm_compute; reflexivity).
  by destruct fuel.
Qed.

(** C4: the code does not do what the claim says.  [A] is [y] and
    depends on [B != n], the tristate [B] is [n]: removing the value of
    the constant [n] from the set [{1, 2}] raises [KeyError].  And when
    [A] depends on [S = "x"] and the string option [S] is ["abc"],
    looking that value up in [TRI_TO_STR] raises [KeyError]. *)
Theorem try_fix_deps_raises_KeyError (fuel : nat) :
  try_fix_deps Scenario.unequal_n (S fuel) [Scenario.A] Scenario.only_A_yes =
    Some (Raise KeyError, Scenario.only_A_yes) ∧
  try_fix_deps Scenario.equal_string (S fuel) [Scenario.A] Scenario.A_yes_S_abc =
    Some (Raise KeyError, Scenario.A_yes_S_abc).
Proof.
  split; cbn [try_fix_deps].
  - replace (for_syms Scenario.unequal_n [Scenario.A] ∅ Scenario.only_A_yes)
      with (@Raise (gset sym_id) KeyError, Scenario.only_A_yes)
      by (vm_compute; reflexivity).
    reflexivity.
  - replace (for_syms Scenario.equal_string [Scenario.A] ∅ Scenario.A_yes_S_abc)
      with (@Raise (gset sym_id) KeyError, Scenario.A_yes_S_abc)
      by (vm_compute; reflexivity).
    reflexivity.
Qed.

(** C6: the code does not do what the claim says.  For [B != m] the
    conjunct gives the tristate [B] the value [y], and for [B != y] the
    value [m]; for [B != n] it raises [KeyError] and gives [B] no
    value. *)
Theorem fix_unequal_by_constant :
  fix_dep Scenario.unequal_m Scenario.A (ERel UNEQUAL Scenario.B Table.m) ∅ Scenario.only_A_yes =
    (Ok {[ Scenario.B ]},
     World (<[Scenario.B := VInt 2]> (uv Scenario.only_A_yes))
           ["warning: Changing symbol value: B n -> y"]) ∧
  fix_dep Scenario.unequal_y Scenario.A (ERel UNEQUAL Scenario.B Table.y) ∅ Scenario.both_yes =
    (Ok {[ Scenario.B ]},
     World (<[Scenario.B := VInt 1]> (uv Scenario.both_yes))
           ["warning: Changing symbol value: B y -> m"]) ∧
  fix_dep Scenario.unequal_n Scenario.A (ERel UNEQUAL Scenario.B Table.n) ∅ Scenario.only_A_yes =
    (Raise KeyError, Scenario.only_A_yes).
Proof.
  repeat split; vm_compute; reflexivity.
Qed.

(** * Further results *)

(** ** The evaluator on tri-values *)

Section Tri_valued.

Variable K : Kconfig.
Variable st : store.

Lemma is_tri_inv (v : pyval) : is_tri v = true → ∃ z, v = VInt z ∧ 0 ≤ z ≤ 2.
Proof.
  destruct v as [z | x]; [| discriminate]. simpl.
  intros [H1 H2]%andb_true_iff. exists z. split; [done | lia].
Qed.

Lemma rel_user_value_cases (rel : relop) (v1 v2 : sym_id) :
  rel_user_value K st rel v1 v2 = VInt 0 ∨ rel_user_value K st rel v1 v2 = VInt 2.
Proof.
  unfold rel_user_value.
  match goal with |- context [if ?b then 1 else 0] => destruct b end; auto.
Qed.

Lemma tri_leaves_app (a b : expr) :
  forallb (fun s => is_tri (user_value K st s)) (expr_syms a ++ expr_syms b) =
    tri_leaves K st a && tri_leaves K st b.
Proof. apply forallb_app. Qed.

Lemma eval_tri_reading (e : expr) :
  tri_leaves K st e = true →
  expr_user_value K st e = Ok (VInt (tri_reading K st e)) ∧
  0 ≤ tri_reading K st e ≤ 2.
Proof.
  induction e as [s | a IHa b IHb | a IHa b IHb | a IHa | rel v1 v2].
  - unfold tri_leaves. simpl. rewrite andb_true_r.
    intros (z & Hz & Hr)%is_tri_inv. by rewrite Hz.
  - unfold tri_leaves. simpl. rewrite tri_leaves_app.
    intros [Ha Hb]%andb_true_iff.
    destruct (IHa Ha) as [Ea Ra], (IHb Hb) as [Eb Rb].
    rewrite Ea, Eb. simpl. split; [| lia].
    destruct (Z.eqb_spec (tri_reading K st a) 0) as [-> | Hne].
    + f_equal; f_equal; lia.
    + apply py_min_int.
  - unfold tri_leaves. simpl. rewrite tri_leaves_app.
    intros [Ha Hb]%andb_true_iff.
    destruct (IHa Ha) as [Ea Ra], (IHb Hb) as [Eb Rb].
    rewrite Ea, Eb. simpl. split; [| lia].
    destruct (Z.eqb_spec (tri_reading K st a) 2) as [-> | Hne].
    + f_equal; f_equal; lia.
    + apply py_max_int.
  - unfold tri_leaves. simpl. intros Ha.
    destruct (IHa Ha) as [Ea Ra]. rewrite Ea. simpl. split; [done | lia].
  - intros _. cbn [expr_user_value tri_reading].
    destruct (rel_user_value_cases rel v1 v2) as [-> | ->]; split; (done || lia).
Qed.

(** X1. On an expression all of whose symbols have a tri-value, the
    evaluation, short-circuit included, never raises and returns the
    tri-value that reading [AND] as minimum, [OR] as maximum and [NOT x]
    as [2 - x] gives. *)
Theorem expr_user_value_tri_reading (e : expr) :
  tri_leaves K st e = true →
  expr_user_value K st e = Ok (VInt (tri_reading K st e)) ∧
  0 ≤ tri_reading K st e ≤ 2.
Proof. apply eval_tri_reading. Qed.

(** X2. On operands whose symbols have tri-values the evaluator obeys
    De Morgan's laws and double negation. *)
Theorem expr_user_value_de_morgan (a b : expr) :
  tri_leaves K st a = true → tri_leaves K st b = true →
  expr_user_value K st (ENot (EAnd a b)) = expr_user_value K st (EOr (ENot a) (ENot b)) ∧
  expr_user_value K st (ENot (EOr a b)) = expr_user_value K st (EAnd (ENot a) (ENot b)) ∧
  expr_user_value K st (ENot (ENot a)) = expr_user_value K st a.
Proof.
  intros Ha Hb.
  assert (Hab : tri_leaves K st (ENot (EAnd a b)) = true).
  { unfold tri_leaves. simpl. rewrite tri_leaves_app, Ha, Hb. done. }
  assert (Hba : tri_leaves K st (EOr (ENot a) (ENot b)) = true).
  { unfold tri_leaves. simpl. rewrite tri_leaves_app, Ha, Hb. done. }
  assert (Hab' : tri_leaves K st (ENot (EOr a b)) = true).
  { unfold tri_leaves. simpl. rewrite tri_leaves_app, Ha, Hb. done. }
  assert (Hba' : tri_leaves K st (EAnd (ENot a) (ENot b)) = true).
  { unfold tri_leaves. simpl. rewrite tri_leaves_app, Ha, Hb. done. }
  assert (Hnn : tri_leaves K st (ENot (ENot a)) = true) by exact Ha.
  rewrite (proj1 (eval_tri_reading _ Hab)), (proj1 (eval_tri_reading _ Hba)),
    (proj1 (eval_tri_reading _ Hab')), (proj1 (eval_tri_reading _ Hba')),
    (proj1 (eval_tri_reading _ Hnn)), (proj1 (eval_tri_reading _ Ha)).
  simpl. repeat split; f_equal; f_equal; lia.
Qed.

(** X3. A relation never evaluates to [m], and negating it evaluates as
    the opposite relation: [!(a = b)] as [a != b], [!(a < b)] as
    [a >= b], [!(a <= b)] as [a > b], and back. *)
Theorem relation_negation (rel : relop) (v1 v2 : sym_id) :
  (expr_user_value K st (ERel rel v1 v2) = Ok (VInt 0) ∨
   expr_user_value K st (ERel rel v1 v2) = Ok (VInt 2)) ∧
  expr_user_value K st (ENot (ERel rel v1 v2)) =
    expr_user_value K st (ERel (rel_negate rel) v1 v2).
Proof.
  split.
  - simpl. destruct (rel_user_value_cases rel v1 v2) as [-> | ->]; auto.
  - simpl. unfold rel_user_value.
    set (comp := if bool_decide (orig_type K v1 = STRING) && bool_decide (orig_type K v2 = STRING)
                 then _ else _).
    clearbody comp.
    destruct rel; simpl;
      destruct (Z.eqb_spec comp 0), (Z.ltb_spec comp 0), (Z.leb_spec comp 0),
        (Z.ltb_spec 0 comp), (Z.leb_spec 0 comp); simpl; try reflexivity; lia.
Qed.

Local Abbreviation str_in := (holds_str K st).

Lemma holds_str_and_l a b : str_in a → str_in (EAnd a b).
Proof. intros (s & x & Hs & Hx). exists s, x. split; [| done]. simpl. set_solver. Qed.
Lemma holds_str_and_r a b : str_in b → str_in (EAnd a b).
Proof. intros (s & x & Hs & Hx). exists s, x. split; [| done]. simpl. set_solver. Qed.
Lemma holds_str_or_l a b : str_in a → str_in (EOr a b).
Proof. intros (s & x & Hs & Hx). exists s, x. split; [| done]. simpl. set_solver. Qed.
Lemma holds_str_or_r a b : str_in b → str_in (EOr a b).
Proof. intros (s & x & Hs & Hx). exists s, x. split; [| done]. simpl. set_solver. Qed.

Lemma eval_failure (e : expr) :
  (∀ x, expr_user_value K st e = Ok (VStr x) → str_in e) ∧
  (∀ err, expr_user_value K st e = Raise err → err = TypeError ∧ str_in e).
Proof.
  induction e as [s | a [IHa1 IHa2] b [IHb1 IHb2] | a [IHa1 IHa2] b [IHb1 IHb2]
                 | a [IHa1 IHa2] | rel v1 v2]; simpl.
  - split; [| discriminate]. intros x [= Hx]. exists s, x. split; [| done].
    apply list_elem_of_singleton. done.
  - destruct (expr_user_value K st a) as [v1 | e1]; simpl.
    2:{ split; [discriminate |]. intros err [= <-].
        destruct (IHa2 e1 eq_refl) as [-> H]. split; [done | by apply holds_str_and_l]. }
    destruct (py_not v1); [split; discriminate |].
    destruct (expr_user_value K st b) as [v2 | e2]; simpl.
    2:{ split; [discriminate |]. intros err [= <-].
        destruct (IHb2 e2 eq_refl) as [-> H]. split; [done | by apply holds_str_and_r]. }
    unfold py_min, py_lt. destruct v2 as [z2 | x2], v1 as [z1 | x1]; simpl.
    + split; [| discriminate]. by destruct (Z.ltb z2 z1).
    + split; [discriminate |]. intros err [= <-]. split; [done |].
      apply holds_str_and_l. by eapply IHa1.
    + split; [discriminate |]. intros err [= <-]. split; [done |].
      apply holds_str_and_r. by eapply IHb1.
    + split; [| discriminate]. intros x _. apply holds_str_and_l. by eapply IHa1.
  - destruct (expr_user_value K st a) as [v1 | e1]; simpl.
    2:{ split; [discriminate |]. intros err [= <-].
        destruct (IHa2 e1 eq_refl) as [-> H]. split; [done | by apply holds_str_or_l]. }
    destruct (py_eq v1 (VInt 2)); [split; discriminate |].
    destruct (expr_user_value K st b) as [v2 | e2]; simpl.
    2:{ split; [discriminate |]. intros err [= <-].
        destruct (IHb2 e2 eq_refl) as [-> H]. split; [done | by apply holds_str_or_r]. }
    unfold py_max, py_gt, py_lt. destruct v2 as [z2 | x2], v1 as [z1 | x1]; simpl.
    + split; [| discriminate]. by destruct (Z.ltb z1 z2).
    + split; [discriminate |]. intros err [= <-]. split; [done |].
      apply holds_str_or_l. by eapply IHa1.
    + split; [discriminate |]. intros err [= <-]. split; [done |].
      apply holds_str_or_r. by eapply IHb1.
    + split; [| discriminate]. intros x _. apply holds_str_or_l. by eapply IHa1.
  - destruct (expr_user_value K st a) as [[z | x] | e1]; simpl.
    + split; discriminate.
    + split; [discriminate |]. intros err [= <-]. split; [done |].
      destruct (IHa1 x eq_refl) as (s & y & Hs & Hy). by exists s, y.
    + split; [discriminate |]. intros err [= <-].
      destruct (IHa2 e1 eq_refl) as [-> (s & y & Hs & Hy)]. split; [done |]. by exists s, y.
  - split; [| discriminate]. intros x.
    destruct (rel_user_value_cases rel v1 v2) as [-> | ->]; discriminate.
Qed.

(** X4. The only exception the evaluator raises is [TypeError], and it
    raises it only when a symbol of the expression holds a string. *)
Theorem expr_user_value_raises (e : expr) (err : exn) :
  expr_user_value K st e = Raise err →
  err = TypeError ∧
  ∃ (s : sym_id) (x : string), s ∈ expr_syms e ∧ user_value K st s = VStr x.
Proof. apply eval_failure. Qed.

End Tri_valued.

Lemma expr_user_value_tri_reading_witness :
  let st : store := {[ Scenario.A := VInt 2; Scenario.B := VInt 1 ]} in
  let e := EOr (EAnd (ESym Scenario.A) (ENot (ESym Scenario.B))) (ESym Table.n) in
  tri_leaves Scenario.two_cycle st e = true ∧
  expr_user_value Scenario.two_cycle st e = Ok (VInt 1).
Proof.
  intros st e. split; [reflexivity |].
  exact (proj1 (expr_user_value_tri_reading Scenario.two_cycle st e eq_refl)).
Defined.

Lemma expr_user_value_de_morgan_witness :
  let st : store := {[ Scenario.A := VInt 2; Scenario.B := VInt 1 ]} in
  tri_leaves Scenario.two_cycle st (ESym Scenario.A) = true ∧
  tri_leaves Scenario.two_cycle st (ESym Scenario.B) = true ∧
  expr_user_value Scenario.two_cycle st (ENot (EAnd (ESym Scenario.A) (ESym Scenario.B))) =
    expr_user_value Scenario.two_cycle st
      (EOr (ENot (ESym Scenario.A)) (ENot (ESym Scenario.B))).
Proof.
  intros st. split; [reflexivity |]. split; [reflexivity |].
  exact (proj1 (expr_user_value_de_morgan Scenario.two_cycle st
                  (ESym Scenario.A) (ESym Scenario.B) eq_refl eq_refl)).
Defined.

Lemma expr_user_value_raises_witness :
  let st : store := {[ Scenario.A := VStr "abc" ]} in
  expr_user_value Scenario.two_cycle st (ENot (ESym Scenario.A)) = Raise TypeError ∧
  ∃ (s : sym_id) (x : string),
    s ∈ expr_syms (ENot (ESym Scenario.A)) ∧ user_value Scenario.two_cycle st s = VStr x.
Proof.
  intros st. split; [reflexivity |].
  exact (proj2 (expr_user_value_raises Scenario.two_cycle st
                  (ENot (ESym Scenario.A)) TypeError eq_refl)).
Defined.

(** ** The checker, conjunct by conjunct *)

Section Conjuncts.

Variable K : Kconfig.
Variable st : store.

Lemma foldr_min_base (c : Z) (l : list Z) :
  c ≤ 2 → foldr Z.min c l = Z.min c (foldr Z.min 2 l).
Proof. intros Hc. induction l as [| x l IH]; simpl; lia. Qed.

Lemma split_reading (e : expr) :
  foldr Z.min 2 (tri_reading K st <$> split_expr_AND e) = Z.min (tri_reading K st e) 2.
Proof.
  induction e as [s | a IHa b IHb | a _ b _ | a _ | rel v1 v2]; try reflexivity.
  simpl. rewrite fmap_app, foldr_app, foldr_min_base, IHa, IHb; lia.
Qed.

Lemma split_syms (e : expr) :
  expr_syms e = flat_map expr_syms (split_expr_AND e).
Proof.
  induction e as [s | a IHa b IHb | a _ b _ | a _ | rel v1 v2]; simpl;
    rewrite ?app_nil_r; try reflexivity.
  by rewrite flat_map_app, <- IHa, <- IHb.
Qed.

Lemma flat_map_syms (ds : list sym_id) : flat_map expr_syms (ESym <$> ds) = ds.
Proof.
  induction ds as [| d ds IH]; [done |].
  rewrite fmap_cons. cbn [flat_map expr_syms app]. by f_equal.
Qed.

Lemma dep_satisfied_tri (sym dep : sym_id) (z dv : Z) :
  user_value K st sym = VInt z → user_value K st dep = VInt dv →
  dep_satisfied K st sym dep =
    Ok (if bool_decide (type K st sym = BOOL)
        then Z.eqb z 0 || negb (Z.eqb dv 0) else Z.leb z dv).
Proof.
  intros Hz Hd. unfold dep_satisfied. rewrite Hz, Hd. simpl.
  by destruct (bool_decide (type K st sym = BOOL)).
Qed.

Lemma Ok_true_iff (b : bool) : Ok b = Ok true ↔ b = true.
Proof. split; [by intros [= ->] | by intros ->]. Qed.

Lemma conjuncts_satisfied (sym : sym_id) (z : Z) (ds : list sym_id) :
  user_value K st sym = VInt z → 0 ≤ z ≤ 2 →
  forallb (fun d => is_tri (user_value K st d)) ds = true →
  let least := foldr Z.min 2 (tri_reading K st <$> (ESym <$> ds)) in
  0 ≤ least ≤ 2 ∧
  (Forall (λ d, dep_satisfied K st sym d = Ok true) ds ↔
   if bool_decide (type K st sym = BOOL) then z = 0 ∨ least ≠ 0 else z ≤ least).
Proof.
  intros Hz Hr. induction ds as [| d ds IH].
  - intros _. simpl. split; [lia |]. split; [| constructor].
    intros _. destruct (bool_decide (type K st sym = BOOL)); lia.
  - rewrite !fmap_cons. cbn [foldr tri_reading forallb].
    intros [Hd Hds]%andb_true_iff. destruct (IH Hds) as [Hl Hiff].
    apply is_tri_inv in Hd as (dv & Hd & Hdv). rewrite Hd.
    set (least := foldr Z.min 2 (tri_reading K st <$> (ESym <$> ds))) in *.
    split; [lia |]. rewrite Forall_cons, Hiff, (dep_satisfied_tri sym d z dv Hz Hd).
    rewrite Ok_true_iff.
    destruct (bool_decide (type K st sym = BOOL)).
    + rewrite orb_true_iff, negb_true_iff, Z.eqb_eq, Z.eqb_neq. lia.
    + rewrite Z.leb_le. lia.
Qed.

(** X5. When the conjuncts of the dependency of an option are symbols
    and all values are tri-values, the check of the whole dependency is
    the check of every conjunct: [deps_met] returns, and returns true
    exactly when [dep_satisfied] is true of every conjunct. *)
Theorem deps_met_by_conjuncts (sym : sym_id) (ds : list sym_id) :
  split_expr_AND (direct_dep K sym) = ESym <$> ds →
  is_tri (user_value K st sym) = true →
  forallb (fun d => is_tri (user_value K st d)) ds = true →
  ∃ b : bool,
    deps_met K st sym = Ok b ∧
    (b = true ↔ Forall (λ d, dep_satisfied K st sym d = Ok true) ds).
Proof.
  intros Hsplit (z & Hz & Hr)%is_tri_inv Hds.
  destruct (conjuncts_satisfied sym z ds Hz Hr Hds) as [Hl Hiff].
  assert (Hleaves : tri_leaves K st (direct_dep K sym) = true).
  { unfold tri_leaves.
    by rewrite (split_syms (direct_dep K sym)), Hsplit, flat_map_syms. }
  destruct (eval_tri_reading K st _ Hleaves) as [Heval Hrange].
  pose proof (split_reading (direct_dep K sym)) as Hmin.
  rewrite Hsplit in Hmin. rewrite Hmin in Hiff. clear Hmin Hl.
  replace (Z.min (tri_reading K st (direct_dep K sym)) 2)
    with (tri_reading K st (direct_dep K sym)) in Hiff by lia.
  unfold deps_met. rewrite Hz, Heval. unfold py_gt, py_lt. simpl.
  destruct (Z.ltb_spec 0 z) as [Hpos | Hzero].
  - destruct (bool_decide (type K st sym = BOOL)).
    + destruct (Z.eqb_spec z 0); [lia |].
      eexists. split; [reflexivity |].
      rewrite Hiff, negb_true_iff, Z.eqb_neq. lia.
    + eexists. split; [reflexivity |]. rewrite Hiff, Z.leb_le. lia.
  - exists true. split; [done |]. rewrite Hiff.
    destruct (bool_decide (type K st sym = BOOL)); split; auto; intros _; lia.
Qed.

End Conjuncts.

(** Tristate [A] is [m], its dependency [B] is [n]. *)
Lemma deps_met_by_conjuncts_witness :
  split_expr_AND (direct_dep Scenario.tristate_leaf Scenario.A) = ESym <$> [Scenario.B] ∧
  ∃ b : bool,
    deps_met Scenario.tristate_leaf (uv Scenario.only_A_mod) Scenario.A = Ok b ∧
    (b = true ↔
     Forall (λ d, dep_satisfied Scenario.tristate_leaf (uv Scenario.only_A_mod)
                    Scenario.A d = Ok true) [Scenario.B]).
Proof.
  split; [reflexivity |].
  exact (deps_met_by_conjuncts Scenario.tristate_leaf (uv Scenario.only_A_mod)
           Scenario.A [Scenario.B] eq_refl eq_refl eq_refl).
Defined.

(** ** The repair loop: what every run keeps *)

Section Steps.

Variable K : Kconfig.

Lemma TRI_TO_STR_tri (z : Z) : 0 ≤ z ≤ 2 → ∃ s, TRI_TO_STR (VInt z) = Ok s.
Proof.
  intros Hz. assert (z = 0 ∨ z = 1 ∨ z = 2) as [-> | [-> | ->]] by lia;
    simpl; eauto.
Qed.

Lemma step_quiet (check : gset sym_id) (w : world) (r : res (gset sym_id)) :
  (∀ c, r = Ok c → c = check) → conjunct_step K check w r w.
Proof. intros H. exists []. split; [by rewrite app_nil_r | left; done]. Qed.

Ltac quiet_step :=
  intros [= <- <-]; apply step_quiet;
  let c := fresh "c" in let Hc := fresh "Hc" in intros c Hc; by inversion Hc.

Lemma fix_equal_step (v1 v2 : sym_id) (check : gset sym_id) (w : world)
    (r : res (gset sym_id)) (w' : world) :
  fix_equal K v1 v2 check w = (r, w') → conjunct_step K check w r w'.
Proof.
  unfold fix_equal. destruct (tgt_src K v1 v2) as [tgt src].
  unfold bind, get_uv, lift, eprint, do_set_value, ret.
  destruct (TRI_TO_STR (user_value K (uv w) tgt)) as [v_old | e];
    [| quiet_step].
  destruct (TRI_TO_STR (user_value K (uv w) src)) as [v_new | e] eqn:Hnew;
    [| quiet_step].
  apply TRI_TO_STR_Ok in Hnew as (z & Hz & Hr). rewrite Hz.
  intros [= <- <-]. eexists. split; [reflexivity |]. right.
  exists tgt, z. simpl. split; [done |]. split; [| done].
  intros Hnil. discriminate.
Qed.

Lemma set_remove_value (v : pyval) :
  match (values <- set_remove v [1; 2] ;; first_of values)%res with
  | Ok value =>
      (v = VInt 1 ∧ value = 2) ∨ (v = VInt 2 ∧ value = 1)
  | Raise e => e = KeyError ∧ v ≠ VInt 1 ∧ v ≠ VInt 2
  end.
Proof.
  destruct v as [z | x]; simpl; [| done].
  case_bool_decide as Hin.
  - apply elem_of_cons in Hin as [-> | Hin]; [by left |].
    apply list_elem_of_singleton in Hin as ->. by right.
  - split; [done |]. split; intros [= ->]; apply Hin; set_solver.
Qed.

Lemma fix_unequal_step (v1 v2 : sym_id) (check : gset sym_id) (w : world)
    (r : res (gset sym_id)) (w' : world) :
  fix_unequal K v1 v2 check w = (r, w') → conjunct_step K check w r w'.
Proof.
  unfold fix_unequal. destruct (tgt_src K v1 v2) as [tgt src].
  unfold bind, get_uv, lift, eprint, do_set_value, ret.
  pose proof (set_remove_value (user_value K (uv w) src)) as Hval.
  unfold res_bind in Hval.
  destruct (set_remove (user_value K (uv w) src) [1; 2]) as [values | e];
    [| quiet_step].
  destruct (first_of values) as [value | e];
    [| quiet_step].
  destruct (TRI_TO_STR (user_value K (uv w) tgt)) as [v_old | e];
    [| quiet_step].
  destruct (TRI_TO_STR (VInt value)) as [v_new | e];
    [| quiet_step].
  intros [= <- <-]. eexists. split; [reflexivity |]. right.
  exists tgt, value. simpl. split; [| split; [| done]].
  - destruct Hval as [[_ ->] | [_ ->]]; lia.
  - intros Hnil. discriminate.
Qed.

Lemma fix_leaf_step (sym dep : sym_id) (check : gset sym_id) (w : world)
    (r : res (gset sym_id)) (w' : world) :
  fix_leaf K sym dep check w = (r, w') → conjunct_step K check w r w'.
Proof.
  unfold fix_leaf, bind, get_uv, lift, ret.
  destruct (dep_satisfied K (uv w) sym dep) as [[|] | e];
    try (quiet_step).
  set (value := if bool_decide (orig_type K dep = TRISTATE)
                   && bool_decide (orig_type K sym = TRISTATE)
                then user_value K (uv w) sym
                else if bool_decide (orig_type K dep = TRISTATE) then VInt 1 else VInt 2).
  assert (Hpre : ∃ pre, ∀ (k : unit → M (gset sym_id)),
            (match (if in_BOOL_TRISTATE (orig_type K dep) then (λ w, (Ok tt, w))
                    else eprint "error: Cannot fix dependencies: Non-boolean and non-tristate dependency") w
             with (Ok a, w1) => k a w1 | (Raise e, w1) => (Raise e, w1) end)
            = k tt (World (uv w) (stderr w ++ pre))).
  { destruct (in_BOOL_TRISTATE (orig_type K dep)).
    - exists []. intros k. rewrite app_nil_r. by destruct w.
    - eexists. intros k. reflexivity. }
  destruct Hpre as [pre Hpre]. rewrite Hpre. clear Hpre. simpl.
  assert (Hquiet : ∀ r0, (∀ c, r0 = Ok c → c = check) →
            conjunct_step K check w r0 (World (uv w) (stderr w ++ pre))).
  { intros r0 H. exists pre. split; [done | by left]. }
  destruct (py_gt value (user_value K (uv w) dep)) as [[|] | e];
    try (intros [= <- <-]; apply Hquiet; intros c Hc; by inversion Hc).
  destruct (TRI_TO_STR (user_value K (uv w) dep)) as [v_old | e];
    try (intros [= <- <-]; apply Hquiet; intros c Hc; by inversion Hc).
  destruct (TRI_TO_STR value) as [v_new | e] eqn:Hnew;
    try (intros [= <- <-]; apply Hquiet; intros c Hc; by inversion Hc).
  apply TRI_TO_STR_Ok in Hnew as (a & Ha & Hr). rewrite Ha.
  unfold eprint, do_set_value. simpl. intros [= <- <-].
  eexists. split; [simpl; by rewrite <- app_assoc |]. right.
  exists dep, a. simpl. split; [done |]. split; [| done].
  intros Hnil. by apply app_eq_nil in Hnil as [_ [=]].
Qed.

Lemma fix_dep_step (sym : sym_id) (dep : expr) (check : gset sym_id) (w : world)
    (r : res (gset sym_id)) (w' : world) :
  fix_dep K sym dep check w = (r, w') → conjunct_step K check w r w'.
Proof.
  assert (Hcomplex : complex_dependency K sym w = (r, w') → conjunct_step K check w r w').
  { rewrite complex_dependency_run. intros [= <- <-].
    eexists. split; [reflexivity |]. left. by split. }
  destruct dep as [d | a b | a b | a | rel v1 v2]; simpl; try exact Hcomplex.
  - apply fix_leaf_step.
  - destruct (bool_decide (rel = EQUAL) && (is_constant K v1 || is_constant K v2));
      [apply fix_equal_step |].
    destruct (bool_decide (rel = UNEQUAL) && (is_constant K v1 || is_constant K v2));
      [apply fix_unequal_step | exact Hcomplex].
Qed.

(** X6. A conjunct that raises has changed no user value: every
    exception of a conjunct ([KeyError], [TypeError] or the exit) comes
    before its [set_value]. *)
Theorem fix_dep_raise_no_mutation (sym : sym_id) (dep : expr) (check : gset sym_id)
    (w : world) (e : exn) (w' : world) :
  fix_dep K sym dep check w = (Raise e, w') → uv w' = uv w.
Proof.
  intros (lines & _ & [[H _] | (t & z & _ & _ & [=] & _)])%fix_dep_step. exact H.
Qed.

Lemma only_tri_written_refl (st : store) : only_tri_written st st.
Proof. intros s. by left. Qed.

Lemma only_tri_written_trans (st1 st2 st3 : store) :
  only_tri_written st1 st2 → only_tri_written st2 st3 → only_tri_written st1 st3.
Proof.
  intros H12 H23 s. destruct (H23 s) as [Heq | Htri]; [| by right].
  rewrite Heq. apply H12.
Qed.

Lemma stretch_refl (check : gset sym_id) (w : world) (r : res (gset sym_id)) :
  (∀ c, r = Ok c → c = check) → stretch check w r w.
Proof.
  intros Hr. split; [| split].
  - exists []. split; [by rewrite app_nil_r | done].
  - apply only_tri_written_refl.
  - intros c ->%Hr. split; [done |]. intros s Hs. by destruct Hs.
Qed.

Lemma stretch_step (check : gset sym_id) (w : world) (r : res (gset sym_id)) (w' : world) :
  conjunct_step K check w r w' → stretch check w r w'.
Proof.
  intros (lines & Hlines & [[Huv Hr] | (t & z & Hz & Hne & -> & Huv)]).
  - split; [| split].
    + exists lines. by split.
    + rewrite Huv. apply only_tri_written_refl.
    + intros c ->%Hr. split; [done |]. rewrite Huv. intros s Hs. by destruct Hs.
  - split; [| split].
    + exists lines. by split.
    + rewrite Huv. intros s.
      destruct (set_value_int K (uv w) t z) as [-> | ->]; [by left |].
      destruct (decide (t = s)) as [-> | Hts].
      * right. exists z. by rewrite lookup_insert_eq.
      * left. by rewrite lookup_insert_ne.
    + intros c [= <-]. split; [apply union_subseteq_l |]. rewrite Huv. intros s Hs.
      destruct (set_value_int K (uv w) t z) as [Heq | Heq]; rewrite Heq in Hs;
        [by destruct Hs |].
      destruct (decide (t = s)) as [-> | Hts];
        [apply elem_of_union; right; by apply elem_of_singleton |].
      rewrite lookup_insert_ne in Hs by done. by destruct Hs.
Qed.

Lemma stretch_bind (check : gset sym_id) (w : world)
    (m : M (gset sym_id)) (k : gset sym_id → M (gset sym_id))
    (r : res (gset sym_id)) (w' : world) :
  (∀ r1 w1, m w = (r1, w1) → stretch check w r1 w1) →
  (∀ c1 w1 r2 w2, k c1 w1 = (r2, w2) → stretch c1 w1 r2 w2) →
  bind m k w = (r, w') → stretch check w r w'.
Proof.
  intros Hm Hk. unfold bind. destruct (m w) as [[c1 | e] w1] eqn:Hrun.
  - intros Hrest. specialize (Hm _ _ eq_refl). specialize (Hk _ _ _ _ Hrest).
    destruct Hm as ((l1 & Hl1 & Hq1) & Ht1 & Hc1).
    destruct Hk as ((l2 & Hl2 & Hq2) & Ht2 & Hc2).
    destruct (Hc1 c1 eq_refl) as [Hsub1 Hch1].
    split; [| split].
    + exists (l1 ++ l2)%list. split; [by rewrite Hl2, Hl1, app_assoc |].
      intros [-> ->]%app_eq_nil. rewrite Hq2 by done. by apply Hq1.
    + by eapply only_tri_written_trans.
    + intros c ->. destruct (Hc2 c eq_refl) as [Hsub2 Hch2].
      split; [by etrans |]. intros s Hs.
      destruct (decide (uv w1 !! s = uv w !! s)) as [Heq | Hne].
      * apply Hch2. by rewrite Heq.
      * apply Hsub2, Hch1, Hne.
  - intros [= <- <-]. by apply Hm.
Qed.

Lemma for_deps_stretch (sym : sym_id) (deps : list expr) :
  ∀ check w r w', for_deps K sym deps check w = (r, w') → stretch check w r w'.
Proof.
  induction deps as [| dep rest IH]; intros check w r w'; simpl.
  - intros [= <- <-]. apply stretch_refl. by intros c [= ->].
  - apply stretch_bind; [| exact IH].
    intros r1 w1 H. by apply stretch_step, (fix_dep_step sym dep).
Qed.

Lemma fix_sym_stretch (sym : sym_id) (check : gset sym_id) (w : world)
    (r : res (gset sym_id)) (w' : world) :
  fix_sym K sym check w = (r, w') → stretch check w r w'.
Proof.
  unfold fix_sym, bind, get_uv, lift, ret.
  destruct (deps_met K (uv w) sym) as [[|] | e].
  - intros [= <- <-]. apply stretch_refl. by intros c [= ->].
  - apply for_deps_stretch.
  - intros [= <- <-]. by apply stretch_refl.
Qed.

Lemma for_syms_stretch (symbols : list sym_id) :
  ∀ check w r w', for_syms K symbols check w = (r, w') → stretch check w r w'.
Proof.
  induction symbols as [| sym rest IH]; intros check w r w'; simpl.
  - intros [= <- <-]. apply stretch_refl. by intros c [= ->].
  - apply stretch_bind; [| exact IH].
    intros r1 w1 H. by apply (fix_sym_stretch sym).
Qed.

Lemma try_fix_deps_stretch (fuel : nat) :
  ∀ symbols w r w',
    try_fix_deps K fuel symbols w = Some (r, w') →
    (∃ lines : list string,
       stderr w' = (stderr w ++ lines)%list ∧ (lines = [] → uv w' = uv w)) ∧
    only_tri_written (uv w) (uv w').
Proof.
  assert (Hrefl : ∀ w : world,
    (∃ lines : list string,
       stderr w = (stderr w ++ lines)%list ∧ (lines = [] → uv w = uv w)) ∧
    only_tri_written (uv w) (uv w)).
  { intros w. split; [| apply only_tri_written_refl].
    exists []. by rewrite app_nil_r. }
  induction fuel as [| fuel IH]; intros [| s rest] w r w'; cbn [try_fix_deps];
    try (intros [= <- <-]; apply Hrefl); try discriminate.
  destruct (for_syms K (s :: rest) ∅ w) as [[c1 | e] w1] eqn:Hround;
    apply for_syms_stretch in Hround as ((l1 & Hl1 & Hq1) & Ht1 & _).
  - intros ((l2 & Hl2 & Hq2) & Ht2)%IH. split.
    + exists (l1 ++ l2)%list. split; [by rewrite Hl2, Hl1, app_assoc |].
      intros [-> ->]%app_eq_nil. rewrite Hq2 by done. by apply Hq1.
    + by eapply only_tri_written_trans.
  - intros [= <- <-]. split; [by exists l1 | done].
Qed.

(** X7. Whatever the schema, a run of the repair, however it ends, only
    writes tri-values: every option ends with the user value it had or
    with a tri-value.  In particular no user value is removed and no
    string is written. *)
Theorem try_fix_deps_only_tri_written (fuel : nat) (symbols : list sym_id)
    (w : world) (r : res unit) (w' : world) :
  try_fix_deps K fuel symbols w = Some (r, w') →
  only_tri_written (uv w) (uv w').
Proof. intros H. by apply try_fix_deps_stretch in H as [_ H]. Qed.

(** X8. A run of the repair only adds lines to the output, and changes
    no user value without printing: when it has printed nothing, the
    user values are the ones it started with. *)
Theorem try_fix_deps_logged (fuel : nat) (symbols : list sym_id)
    (w : world) (r : res unit) (w' : world) :
  try_fix_deps K fuel symbols w = Some (r, w') →
  ∃ lines : list string,
    stderr w' = (stderr w ++ lines)%list ∧ (lines = [] → uv w' = uv w).
Proof. intros H. by apply try_fix_deps_stretch in H as [H _]. Qed.

(** X9. Every symbol whose user value a round changes is in the set the
    next round works on. *)
Theorem for_syms_queues_mutated (symbols : list sym_id) (w : world)
    (check : gset sym_id) (w' : world) (s : sym_id) :
  for_syms K symbols ∅ w = (Ok check, w') →
  uv w' !! s ≠ uv w !! s →
  s ∈ check.
Proof.
  intros (_ & _ & Hc)%for_syms_stretch Hs.
  destruct (Hc check eq_refl) as [_ H]. by apply H.
Qed.

End Steps.

(** [A] depends on [B != n]: the conjunct raises [KeyError]. *)
Lemma fix_dep_raise_no_mutation_witness :
  fix_dep Scenario.unequal_n Scenario.A (ERel UNEQUAL Scenario.B Table.n) ∅
    Scenario.only_A_yes = (Raise KeyError, Scenario.only_A_yes) ∧
  uv Scenario.only_A_yes = uv Scenario.only_A_yes.
Proof.
  split; [reflexivity |].
  exact (fix_dep_raise_no_mutation Scenario.unequal_n Scenario.A
           (ERel UNEQUAL Scenario.B Table.n) ∅ Scenario.only_A_yes KeyError
           Scenario.only_A_yes eq_refl).
Defined.

(** [A] depends on [B = n] and [B] is [y]: the run writes [n] to [B]. *)
Lemma try_fix_deps_only_tri_written_witness :
  try_fix_deps Scenario.equal_n 2 [Scenario.A] Scenario.both_yes =
    Some (Ok tt,
          World (<[Scenario.B := VInt 0]> (uv Scenario.both_yes))
                ["warning: Changing symbol value: B y -> n"]) ∧
  only_tri_written (uv Scenario.both_yes)
                   (<[Scenario.B := VInt 0]> (uv Scenario.both_yes)).
Proof.
  assert (Hrun : try_fix_deps Scenario.equal_n 2 [Scenario.A] Scenario.both_yes =
    Some (Ok tt,
          World (<[Scenario.B := VInt 0]> (uv Scenario.both_yes))
                ["warning: Changing symbol value: B y -> n"]))
    by (vm_compute; reflexivity).
  split; [exact Hrun |].
  exact (try_fix_deps_only_tri_written Scenario.equal_n _ _ _ _ _ Hrun).
Defined.

Lemma try_fix_deps_logged_witness :
  try_fix_deps Scenario.tristate_leaf 2 [Scenario.A] Scenario.only_A_mod =
    Some (Ok tt,
          World (<[Scenario.B := VInt 1]> (uv Scenario.only_A_mod))
                ["warning: Changing symbol value: B n -> m"]) ∧
  ∃ lines : list string,
    ["warning: Changing symbol value: B n -> m"] = ([] ++ lines)%list ∧
    (lines = [] →
     <[Scenario.B := VInt 1]> (uv Scenario.only_A_mod) = uv Scenario.only_A_mod).
Proof.
  assert (Hrun : try_fix_deps Scenario.tristate_leaf 2 [Scenario.A] Scenario.only_A_mod =
    Some (Ok tt,
          World (<[Scenario.B := VInt 1]> (uv Scenario.only_A_mod))
                ["warning: Changing symbol value: B n -> m"]))
    by (vm_compute; reflexivity).
  split; [exact Hrun |].
  exact (try_fix_deps_logged Scenario.tristate_leaf _ _ _ _ _ Hrun).
Defined.

Lemma for_syms_queues_mutated_witness :
  for_syms Scenario.two_cycle [Scenario.A] ∅ Scenario.only_A_yes =
    (Ok {[ Scenario.B ]},
     World (<[Scenario.B := VInt 2]> (uv Scenario.only_A_yes))
           ["warning: Changing symbol value: B n -> y"]) ∧
  Scenario.B ∈ ({[ Scenario.B ]} : gset sym_id).
Proof.
  assert (Hround : for_syms Scenario.two_cycle [Scenario.A] ∅ Scenario.only_A_yes =
    (Ok {[ Scenario.B ]},
     World (<[Scenario.B := VInt 2]> (uv Scenario.only_A_yes))
           ["warning: Changing symbol value: B n -> y"]))
    by (vm_compute; reflexivity).
  split; [exact Hround |].
  refine (for_syms_queues_mutated Scenario.two_cycle _ _ _ _ Scenario.B Hround _).
  vm_compute. discriminate.
Defined.

(** ** The repair loop: a symbol conjunct ends satisfied *)

Section Leaf_repair.

Variable K : Kconfig.

(** X10. For a bool or tristate option with a tri-value assigned and a
    bool or tristate conjunct whose value is a tri-value, the conjunct
    step returns, and afterwards the conjunct satisfies the option. *)
Theorem fix_leaf_satisfies (sym dep : sym_id) (check : gset sym_id) (w : world) (zs : Z) :
  type_ok K sym →
  in_BOOL_TRISTATE (orig_type K dep) = true →
  uv w !! sym = Some (VInt zs) → 0 ≤ zs ≤ 2 →
  is_tri (user_value K (uv w) dep) = true →
  ∃ (check' : gset sym_id) (w' : world),
    fix_dep K sym (ESym dep) check w = (Ok check', w') ∧
    dep_satisfied K (uv w') sym dep = Ok true.
Proof.
  intros [Hos Hty] Hod Hsym Hzs (zd & Hdep & Hzd)%is_tri_inv.
  assert (Hus : user_value K (uv w) sym = VInt zs) by (unfold user_value; by rewrite Hsym).
  cbn [fix_dep]. unfold fix_leaf, bind, get_uv, lift, ret.
  rewrite (dep_satisfied_tri K (uv w) sym dep zs zd Hus Hdep).
  destruct (if bool_decide (type K (uv w) sym = BOOL)
            then Z.eqb zs 0 || negb (Z.eqb zd 0) else Z.leb zs zd) eqn:Hsat.
  { exists check, w. split; [done |].
    by rewrite (dep_satisfied_tri K (uv w) sym dep zs zd Hus Hdep), Hsat. }
  assert (Hne : sym ≠ dep).
  { intros ->. rewrite Hus in Hdep. injection Hdep as ->.
    destruct (bool_decide (type K (uv w) dep = BOOL)).
    - destruct (Z.eqb_spec zd 0); discriminate.
    - destruct (Z.leb_spec zd zd); [discriminate | lia]. }
  rewrite Hod, Hus, Hdep.
  set (value := if bool_decide (orig_type K dep = TRISTATE)
                   && bool_decide (orig_type K sym = TRISTATE)
                then VInt zs
                else if bool_decide (orig_type K dep = TRISTATE) then VInt 1 else VInt 2).
  assert (Hvalue : ∃ a, value = VInt a ∧ zd < a ≤ 2 ∧
            value_valid K dep (VInt a) = true ∧
            (orig_type K sym = TRISTATE → zs ≤ a) ∧ (zs = 0 ∨ a ≠ 0)).
  { assert (Hunsat : (type K (uv w) sym = BOOL ∧ zs ≠ 0 ∧ zd = 0) ∨
                     (type K (uv w) sym = orig_type K sym ∧
                      orig_type K sym = TRISTATE ∧ zd < zs)).
    { destruct (Hty (uv w)) as [Hb | Ho].
      - left. rewrite bool_decide_eq_true_2 in Hsat by done.
        destruct (Z.eqb_spec zs 0), (Z.eqb_spec zd 0); try discriminate. done.
      - case_bool_decide as Hb.
        + left. destruct (Z.eqb_spec zs 0), (Z.eqb_spec zd 0); try discriminate. done.
        + right. split; [done |]. apply Z.leb_gt in Hsat.
          rewrite Ho in Hb. destruct (orig_type K sym); try discriminate; done. }
    unfold value, value_valid.
    destruct (orig_type K dep) eqn:Hd; try discriminate;
      destruct (orig_type K sym) eqn:Hs; try discriminate; simpl.
    - exists 2. destruct Hunsat as [(_ & ? & ?) | (_ & [=] & _)]. repeat split; (done || lia).
    - exists 2. destruct Hunsat as [(_ & ? & ?) | (_ & _ & ?)]; repeat split; (done || lia).
    - exists 1. destruct Hunsat as [(_ & ? & ?) | (_ & [=] & _)]. repeat split; (done || lia).
    - exists zs. destruct Hunsat as [(_ & ? & ?) | (_ & _ & ?)].
      + split; [done |]. split; [lia |]. split; [| split; [lia | lia]].
        assert (zs = 1 ∨ zs = 2) as [-> | ->] by lia; done.
      + split; [done |]. split; [lia |]. split; [| split; [lia | lia]].
        assert (zs = 1 ∨ zs = 2) as [-> | ->] by lia; done. }
  destruct Hvalue as (a & -> & Ha & Hvalid & Htri & Hbool).
  destruct (TRI_TO_STR_tri zd Hzd) as [v_old Hold].
  destruct (TRI_TO_STR_tri a ltac:(lia)) as [v_new Hnew].
  unfold py_gt, py_lt. rewrite (proj2 (Z.ltb_lt zd a)) by lia.
  rewrite Hold, Hnew. unfold eprint, do_set_value. simpl.
  rewrite (set_value_valid_int K (uv w) dep a Hvalid).
  eexists _, _. split; [reflexivity |]. simpl.
  assert (Hus' : user_value K (<[dep := VInt a]> (uv w)) sym = VInt zs).
  { unfold user_value. rewrite lookup_insert_ne by done. by rewrite Hsym. }
  assert (Hud' : user_value K (<[dep := VInt a]> (uv w)) dep = VInt a).
  { unfold user_value. by rewrite lookup_insert_eq. }
  rewrite (dep_satisfied_tri K _ sym dep zs a Hus' Hud'). f_equal.
  clear Hsat.
  destruct (Hty (<[dep := VInt a]> (uv w))) as [Hb | Ho].
  - rewrite bool_decide_eq_true_2 by done.
    apply orb_true_iff. rewrite negb_true_iff, Z.eqb_eq, Z.eqb_neq. lia.
  - destruct (decide (type K (<[dep := VInt a]> (uv w)) sym = BOOL)) as [Hb | Hb].
    + rewrite bool_decide_eq_true_2 by done.
      apply orb_true_iff. rewrite negb_true_iff, Z.eqb_eq, Z.eqb_neq. lia.
    + rewrite bool_decide_eq_false_2 by done.
      apply Z.leb_le, Htri. rewrite Ho in Hb.
      destruct (orig_type K sym); try discriminate; done.
Qed.

End Leaf_repair.

(** Tristate [A] is [m] and depends on the tristate [B], which is [n]. *)
Lemma fix_leaf_satisfies_witness :
  type_ok Scenario.tristate_leaf Scenario.A ∧
  ∃ (check' : gset sym_id) (w' : world),
    fix_dep Scenario.tristate_leaf Scenario.A (ESym Scenario.B) ∅ Scenario.only_A_mod =
      (Ok check', w') ∧
    dep_satisfied Scenario.tristate_leaf (uv w') Scenario.A Scenario.B = Ok true.
Proof.
  assert (Hok : type_ok Scenario.tristate_leaf Scenario.A).
  { split; [reflexivity |]. intros st. by right. }
  split; [exact Hok |].
  exact (fix_leaf_satisfies Scenario.tristate_leaf Scenario.A Scenario.B ∅
           Scenario.only_A_mod 1 Hok eq_refl eq_refl ltac:(lia) eq_refl).
Defined.

(** ** The repair loop: termination *)

Section Termination.

Variable K : Kconfig.
Variable U : gset sym_id.
Hypothesis order_ok : set_order_ok K.
Hypothesis closed : leaf_closed K U.

Lemma sum_slots_insert (st : store) (d : sym_id) (v : pyval) (l : list sym_id) :
  NoDup l →
  (d ∈ l →
   (sum_list_with (λ s, slot (<[d := v]> st !! s)) l + slot (st !! d) =
    sum_list_with (λ s, slot (st !! s)) l + slot (Some v))%nat) ∧
  (d ∉ l →
   sum_list_with (λ s, slot (<[d := v]> st !! s)) l =
   sum_list_with (λ s, slot (st !! s)) l).
Proof.
  induction 1 as [| x l Hx Hnd [IHin IHout]]; cbn [sum_list_with].
  - split; [by intros ?%elem_of_nil | done].
  - split.
    + intros [<- | Hin]%elem_of_cons.
      * rewrite lookup_insert_eq, (IHout Hx). lia.
      * assert (d ≠ x) by (intros ->; done).
        rewrite lookup_insert_ne by done. specialize (IHin Hin). lia.
    + intros [Hne Hout]%not_elem_of_cons.
      rewrite lookup_insert_ne by done. by rewrite (IHout Hout).
Qed.

Lemma debt_insert (st : store) (d : sym_id) (v : pyval) :
  d ∈ U →
  (debt U (<[d := v]> st) + slot (st !! d) = debt U st + slot (Some v))%nat.
Proof.
  intros Hd. unfold debt.
  apply (sum_slots_insert st d v (elements U)); [apply NoDup_elements |].
  by apply elem_of_elements.
Qed.

(** The three ways a symbol conjunct ends. *)
Lemma fix_leaf_cases (sym dep : sym_id) (check : gset sym_id) (w : world)
    (r : res (gset sym_id)) (w' : world) :
  fix_leaf K sym dep check w = (r, w') →
  (uv w' = uv w ∧ ∀ c, r = Ok c → c = check) ∨
  (∃ a b : Z,
     r = Ok (check ∪ {[ dep ]}) ∧
     uv w' = set_value K (uv w) dep (VInt a) ∧
     user_value K (uv w) dep = VInt b ∧ 0 ≤ b ∧ b < a ≤ 2 ∧
     (orig_type K dep = TRISTATE ∨ a = 2)).
Proof.
  unfold fix_leaf, bind, get_uv, lift, ret.
  destruct (dep_satisfied K (uv w) sym dep) as [[|] | e];
    try (intros [= <- <-]; left; split; [done |]; intros c Hc; by inversion Hc).
  set (value := if bool_decide (orig_type K dep = TRISTATE)
                   && bool_decide (orig_type K sym = TRISTATE)
                then user_value K (uv w) sym
                else if bool_decide (orig_type K dep = TRISTATE) then VInt 1 else VInt 2).
  assert (Hshape : ∀ a, value = VInt a → orig_type K dep = TRISTATE ∨ a = 2).
  { intros a. unfold value. case_bool_decide as Hd; [by left |]. simpl.
    intros [= <-]. by right. }
  assert (Hpre : ∃ pre, ∀ (k : unit → M (gset sym_id)),
            (match (if in_BOOL_TRISTATE (orig_type K dep) then (λ w, (Ok tt, w))
                    else eprint "error: Cannot fix dependencies: Non-boolean and non-tristate dependency") w
             with (Ok a, w1) => k a w1 | (Raise e, w1) => (Raise e, w1) end)
            = k tt (World (uv w) (stderr w ++ pre))).
  { destruct (in_BOOL_TRISTATE (orig_type K dep)).
    - exists []. intros k. rewrite app_nil_r. by destruct w.
    - eexists. intros k. reflexivity. }
  destruct Hpre as [pre Hpre]. rewrite Hpre. clear Hpre. simpl.
  destruct (py_gt value (user_value K (uv w) dep)) as [[|] | e] eqn:Hgt;
    try (intros [= <- <-]; left; split; [done |]; intros c Hc; by inversion Hc).
  destruct (TRI_TO_STR (user_value K (uv w) dep)) as [v_old | e] eqn:Hold;
    try (intros [= <- <-]; left; split; [done |]; intros c Hc; by inversion Hc).
  destruct (TRI_TO_STR value) as [v_new | e] eqn:Hnew;
    try (intros [= <- <-]; left; split; [done |]; intros c Hc; by inversion Hc).
  apply TRI_TO_STR_Ok in Hold as (b & Hb & Hbr).
  apply TRI_TO_STR_Ok in Hnew as (a & Ha & Har).
  rewrite Ha, Hb in Hgt. unfold py_gt, py_lt in Hgt.
  injection Hgt as Hlt. apply Z.ltb_lt in Hlt.
  unfold eprint, do_set_value. simpl. intros [= <- <-]. right.
  exists a, b. simpl. rewrite Ha. repeat split; (done || lia || by apply Hshape).
Qed.

Local Abbreviation advance := (advance U).

Lemma advance_trans c1 w1 c2 w2 c3 w3 :
  advance c1 w1 c2 w2 → advance c2 w2 c3 w3 → advance c1 w1 c3 w3.
Proof.
  intros [[-> E1] | [D1 S1]] [[-> E2] | [D2 S2]].
  - left. split; [done | by rewrite E2].
  - right. rewrite <- E1. done.
  - right. rewrite E2. done.
  - right. split; [lia |]. intros x [Hx | Hx]%S2%elem_of_union.
    + by apply S1.
    + apply elem_of_union. by right.
Qed.

Lemma fix_leaf_advance (sym dep : sym_id) (check : gset sym_id) (w : world)
    (check' : gset sym_id) (w' : world) :
  dep ∈ U → in_BOOL_TRISTATE (orig_type K dep) = true →
  fix_leaf K sym dep check w = (Ok check', w') →
  advance check w check' w'.
Proof.
  intros HU Hty [[Huv Hc] | (a & b & [= ->] & Huv & Hb & Hb0 & Hab & Hshape)]%fix_leaf_cases.
  - left. split; [by apply Hc | done].
  - right. split.
    2:{ intros x [Hx | ->%elem_of_singleton]%elem_of_union; apply elem_of_union; auto. }
    assert (Hvalid : value_valid K dep (VInt a) = true).
    { unfold value_valid. destruct (orig_type K dep); try discriminate.
      - destruct Hshape as [[=] | ->]. done.
      - assert (a = 1 ∨ a = 2) as [-> | ->] by lia; done. }
    rewrite Huv, (set_value_valid_int K (uv w) dep a Hvalid).
    pose proof (debt_insert (uv w) dep (VInt a) HU) as Hdebt.
    assert ((slot (Some (VInt a)) < slot (uv w !! dep))%nat); [| lia].
    unfold user_value in Hb. destruct (uv w !! dep) as [v |]; simpl.
    + subst v. lia.
    + lia.
Qed.

Lemma fix_dep_advance (sym : sym_id) (dep : expr) (check : gset sym_id) (w : world)
    (check' : gset sym_id) (w' : world) :
  constant_relation K dep = false →
  (∀ d, dep = ESym d → d ∈ U ∧ in_BOOL_TRISTATE (orig_type K d) = true) →
  fix_dep K sym dep check w = (Ok check', w') →
  advance check w check' w'.
Proof.
  intros Hrel Hleaf. destruct dep as [d | a b | a b | a | rel v1 v2]; simpl;
    try (rewrite complex_dependency_run; discriminate).
  - destruct (Hleaf d eq_refl) as [HU Hty]. by apply fix_leaf_advance.
  - simpl in Hrel.
    destruct (bool_decide (rel = EQUAL)), (bool_decide (rel = UNEQUAL)),
      (is_constant K v1 || is_constant K v2); simpl in *; try discriminate;
      rewrite complex_dependency_run; discriminate.
Qed.

Lemma for_deps_advance (sym : sym_id) (deps : list expr) :
  Forall (λ e, constant_relation K e = false ∧
               ∀ d, e = ESym d → d ∈ U ∧ in_BOOL_TRISTATE (orig_type K d) = true) deps →
  ∀ check w check' w',
    for_deps K sym deps check w = (Ok check', w') → advance check w check' w'.
Proof.
  induction 1 as [| dep rest [Hrel Hleaf] _ IH]; intros check w check' w'; simpl.
  - intros [= <- <-]. by left.
  - unfold bind. destruct (fix_dep K sym dep check w) as [[c1 | e] w1] eqn:Hfix;
      [| discriminate].
    intros Hrest. eapply advance_trans; [by eapply fix_dep_advance | by eapply IH].
Qed.

Lemma fix_sym_advance (sym : sym_id) (check : gset sym_id) (w : world)
    (check' : gset sym_id) (w' : world) :
  sym ∈ U →
  fix_sym K sym check w = (Ok check', w') → advance check w check' w'.
Proof.
  intros HU. unfold fix_sym, bind, get_uv, lift, ret.
  destruct (deps_met K (uv w) sym) as [[|] | e]; [| | discriminate].
  - intros [= <- <-]. by left.
  - apply for_deps_advance. apply Forall_forall. intros e He. by apply (closed sym).
Qed.

Lemma for_syms_advance (symbols : list sym_id) :
  Forall (λ s, s ∈ U) symbols →
  ∀ check w check' w',
    for_syms K symbols check w = (Ok check', w') → advance check w check' w'.
Proof.
  induction 1 as [| sym rest HU _ IH]; intros check w check' w'; simpl.
  - intros [= <- <-]. by left.
  - unfold bind. destruct (fix_sym K sym check w) as [[c1 | e] w1] eqn:Hfix;
      [| discriminate].
    intros Hrest. eapply advance_trans; [by eapply fix_sym_advance | by eapply IH].
Qed.

Lemma set_order_members (X : gset sym_id) :
  X ⊆ U → Forall (λ s, s ∈ U) (set_order K X).
Proof.
  intros HX. apply Forall_forall. intros s Hs. apply HX.
  rewrite (order_ok X) in Hs. by apply elem_of_elements.
Qed.

Lemma terminates_within (n : nat) :
  ∀ symbols w,
    Forall (λ s, s ∈ U) symbols → (debt U (uv w) ≤ n)%nat →
    is_Some (try_fix_deps K (S n) symbols w).
Proof.
  induction n as [| n IH]; intros [| s rest] w HU Hdebt; cbn [try_fix_deps];
    try (by eexists).
  - destruct (for_syms K (s :: rest) ∅ w) as [[check | e] w1] eqn:Hround;
      [| by eexists].
    apply (for_syms_advance _ HU) in Hround as [[-> _] | [Hlt _]]; [| lia].
    rewrite (set_order_empty K order_ok). by eexists.
  - destruct (for_syms K (s :: rest) ∅ w) as [[check | e] w1] eqn:Hround;
      [| by eexists].
    apply (for_syms_advance _ HU) in Hround as [[-> _] | [Hlt Hsub]].
    + rewrite (set_order_empty K order_ok). by eexists.
    + apply IH; [| lia]. apply set_order_members.
      intros x [Hx | Hx]%Hsub%elem_of_union; [by apply elem_of_empty in Hx | done].
Qed.

Lemma try_fix_deps_fuel_le (fuel fuel' : nat) (symbols : list sym_id) (w : world) :
  (fuel ≤ fuel')%nat →
  is_Some (try_fix_deps K fuel symbols w) → is_Some (try_fix_deps K fuel' symbols w).
Proof.
  induction 1 as [| fuel' _ IH]; [done |].
  intros [out Hout]%IH. exists out. by apply try_fix_deps_more_fuel.
Qed.

Lemma debt_bound (st : store) :
  (∀ s v, st !! s = Some v → is_tri v = true) →
  (debt U st ≤ 3 * size U)%nat.
Proof.
  intros Htri. unfold debt, size, set_size. simpl.
  induction (elements U) as [| x l IH]; cbn [sum_list_with length]; [lia |].
  assert ((slot (st !! x) ≤ 3)%nat); [| lia].
  destruct (st !! x) as [v |] eqn:Hx; simpl; [| lia].
  apply Htri, is_tri_inv in Hx as (z & -> & Hz). lia.
Qed.

(** X11. On a finite set [U] of options closed under symbol conjuncts,
    whose conjuncts are bool or tristate symbols (or are rejected), the
    repair terminates, dependency cycles included: started on options
    of [U] it ends within [debt + 1] rounds, where an unassigned option
    of [U] counts 3 and one assigned [z] counts [2 - z]; that is within
    [3 * size U + 1] rounds when the assigned values are tri-values. *)
Theorem try_fix_deps_terminates (symbols : list sym_id) (w : world) :
  Forall (λ s, s ∈ U) symbols →
  is_Some (try_fix_deps K (S (debt U (uv w))) symbols w) ∧
  ((∀ s v, uv w !! s = Some v → is_tri v = true) →
   is_Some (try_fix_deps K (S (3 * size U)) symbols w)).
Proof.
  intros HU. split.
  - by apply terminates_within.
  - intros Htri. apply (try_fix_deps_fuel_le (S (debt U (uv w)))).
    + apply le_n_S. by apply debt_bound.
    + by apply terminates_within.
Qed.

End Termination.

Lemma two_cycle_leaf_closed :
  leaf_closed Scenario.two_cycle {[ Scenario.A; Scenario.B ]}.
Proof.
  intros s e Hs. apply elem_of_union in Hs as [Hs | Hs];
    apply elem_of_singleton in Hs as ->.
  - simpl. intros ->%list_elem_of_singleton. split; [done |].
    intros d [= <-]. split; [| done].
    apply elem_of_union. right. by apply elem_of_singleton.
  - simpl. intros ->%list_elem_of_singleton. split; [done |].
    intros d [= <-]. split; [| done].
    apply elem_of_union. left. by apply elem_of_singleton.
Qed.

(** The cycle of the booleans [A] and [B], [A] assigned [y]. *)
Lemma try_fix_deps_terminates_witness :
  leaf_closed Scenario.two_cycle {[ Scenario.A; Scenario.B ]} ∧
  Forall (λ s, s ∈ ({[ Scenario.A; Scenario.B ]} : gset sym_id)) [Scenario.A] ∧
  is_Some (try_fix_deps Scenario.two_cycle
             (S (debt {[ Scenario.A; Scenario.B ]} (uv Scenario.only_A_yes)))
             [Scenario.A] Scenario.only_A_yes).
Proof.
  assert (HU : Forall (λ s, s ∈ ({[ Scenario.A; Scenario.B ]} : gset sym_id)) [Scenario.A]).
  { constructor; [| constructor]. apply elem_of_union. left. by apply elem_of_singleton. }
  split; [exact two_cycle_leaf_closed |]. split; [exact HU |].
  exact (proj1 (try_fix_deps_terminates Scenario.two_cycle {[ Scenario.A; Scenario.B ]}
                  (table_set_order_ok _) two_cycle_leaf_closed
                  [Scenario.A] Scenario.only_A_yes HU)).
Defined.

(** ** The filter, the warnings and the driver *)

Section Checks.

Variable K : Kconfig.

Lemma filter_unmet_deps_members (st : store) (symbols : list sym_id) :
  ∀ l, filter_unmet_deps K st symbols = Ok l →
       ∀ x, x ∈ l ↔ x ∈ symbols ∧ in_BOOL_TRISTATE (orig_type K x) = true
                      ∧ deps_met K st x = Ok false.
Proof.
  induction symbols as [| y rest IH]; intros l; simpl.
  - intros [= <-] x. split; [by intros ?%elem_of_nil | by intros [?%elem_of_nil _]].
  - assert (Hskip : ∀ tl : list sym_id,
              (∀ x, x ∈ tl ↔ x ∈ rest ∧ in_BOOL_TRISTATE (orig_type K x) = true
                             ∧ deps_met K st x = Ok false) →
              ¬ (in_BOOL_TRISTATE (orig_type K y) = true ∧ deps_met K st y = Ok false) →
              ∀ x, x ∈ tl ↔ x ∈ y :: rest ∧ in_BOOL_TRISTATE (orig_type K x) = true
                            ∧ deps_met K st x = Ok false).
    { intros tl Htl Hy x. rewrite Htl, elem_of_cons. split.
      - intros (Hin & Hx). split; [by right | done].
      - intros [[-> | Hin] Hx]; [by destruct Hy | done]. }
    destruct (in_BOOL_TRISTATE (orig_type K y)) eqn:Hty; simpl.
    + destruct (deps_met K st y) as [met | e] eqn:Hmet; simpl; [| discriminate].
      destruct (filter_unmet_deps K st rest) as [tl | e]; simpl; [| discriminate].
      specialize (IH tl eq_refl). intros [= <-]. destruct met; simpl.
      * apply Hskip; [done |]. by intros [_ [=]].
      * intros x. rewrite !elem_of_cons, IH. split.
        -- intros [-> | (Hin & Hx)]; [by split; [left |] | by split; [right |]].
        -- intros [[-> | Hin] Hx]; [by left | by right].
    + destruct (filter_unmet_deps K st rest) as [tl | e]; simpl; [| discriminate].
      specialize (IH tl eq_refl). intros [= <-].
      apply Hskip; [done |]. by intros [[=] _].
Qed.

Lemma filter_unmet_deps_raises (st : store) (symbols : list sym_id) :
  ∀ e, filter_unmet_deps K st symbols = Raise e →
       ∃ x, x ∈ symbols ∧ in_BOOL_TRISTATE (orig_type K x) = true
            ∧ deps_met K st x = Raise e.
Proof.
  induction symbols as [| y rest IH]; intros e; simpl; [discriminate |].
  assert (Hrest : ∀ keep : bool,
            (tl <- filter_unmet_deps K st rest ;;
             Ok (if keep then y :: tl else tl))%res = Raise e →
            ∃ x, x ∈ y :: rest ∧ in_BOOL_TRISTATE (orig_type K x) = true
                 ∧ deps_met K st x = Raise e).
  { intros keep. destruct (filter_unmet_deps K st rest) as [tl | e']; simpl;
      [discriminate |].
    intros [= ->]. destruct (IH e eq_refl) as (x & Hin & Hx).
    exists x. split; [by apply list_elem_of_further | done]. }
  destruct (in_BOOL_TRISTATE (orig_type K y)) eqn:Hty; simpl; [| apply (Hrest false)].
  destruct (deps_met K st y) as [met | e'] eqn:Hmet; simpl; [apply (Hrest (negb met)) |].
  intros [= ->]. exists y. split; [by apply list_elem_of_here | done].
Qed.

(** X12. [filter_unmet_deps] keeps exactly the bool and tristate options
    whose dependencies are not met; an option of another kind is never
    checked, and the filter raises only what the check of a bool or
    tristate option raises. *)
Theorem filter_unmet_deps_spec (st : store) (symbols : list sym_id) :
  (∀ l, filter_unmet_deps K st symbols = Ok l →
        ∀ x, x ∈ l ↔ x ∈ symbols ∧ in_BOOL_TRISTATE (orig_type K x) = true
                       ∧ deps_met K st x = Ok false) ∧
  (∀ e, filter_unmet_deps K st symbols = Raise e →
        ∃ x, x ∈ symbols ∧ in_BOOL_TRISTATE (orig_type K x) = true
             ∧ deps_met K st x = Raise e).
Proof.
  split; [apply filter_unmet_deps_members | apply filter_unmet_deps_raises].
Qed.

Lemma warn_each_run (syms : list sym_id) :
  ∀ w, warn_each K syms w =
         (Ok tt, World (uv w) (stderr w ++ (unmet_line K <$> syms))).
Proof.
  induction syms as [| s rest IH]; intros w; simpl.
  - unfold ret. rewrite app_nil_r. by destruct w.
  - unfold bind, eprint. rewrite IH. simpl. by rewrite <- app_assoc.
Qed.

(** X13. [warn_unmet_deps] changes no user value, prints one warning for
    every violation the filter finds, in the order of the filter, and
    returns whether there is one. *)
Theorem warn_unmet_deps_spec (symbols : list sym_id) (w : world) (b : bool) (w' : world) :
  warn_unmet_deps K symbols w = (Ok b, w') →
  ∃ syms : list sym_id,
    filter_unmet_deps K (uv w) symbols = Ok syms ∧
    w' = World (uv w) (stderr w ++ (unmet_line K <$> syms)) ∧
    (b = true ↔ syms ≠ []).
Proof.
  unfold warn_unmet_deps, bind, get_uv, lift, ret.
  destruct (filter_unmet_deps K (uv w) symbols) as [syms | e]; [| discriminate].
  rewrite warn_each_run. intros [= <- <-]. exists syms.
  split; [done |]. split; [done |]. by destruct syms.
Qed.

(** X14. When the driver, run with the repair, gets as far as writing
    the configuration, the filter finds no violation in the user values
    it has then. *)
Theorem main_check_fixed (symbols : list sym_id) (fuel : nat) (w w' : world) :
  main_check K true symbols fuel w = Some (Ok tt, w') →
  filter_unmet_deps K (uv w') symbols = Ok [].
Proof.
  unfold main_check, bind, get_uv, lift, ret.
  destruct (filter_unmet_deps K (uv w) symbols) as [unmet | e] eqn:Hfilter;
    [| discriminate].
  rewrite warn_each_run. destruct unmet as [| x unmet].
  - by intros [= <-].
  - destruct (try_fix_deps K fuel (x :: unmet) _) as [[[[] | e] w2] |];
      try discriminate.
    destruct (filter_unmet_deps K (uv w2) symbols) as [[| y l] | e] eqn:Hagain;
      try discriminate.
    by intros [= <-].
Qed.

(** X15. Run without the repair, the driver changes no user value and
    never exits: it fails only when the filter raises, and otherwise
    prints one warning for every violation, and one more line when there
    is a violation. *)
Theorem main_check_report_only (symbols : list sym_id) (fuel : nat)
    (w : world) (r : res unit) (w' : world) :
  main_check K false symbols fuel w = Some (r, w') →
  uv w' = uv w ∧
  match filter_unmet_deps K (uv w) symbols with
  | Raise e => r = Raise e ∧ w' = w
  | Ok unmet =>
      r = Ok tt ∧
      stderr w' =
        ((stderr w ++ (unmet_line K <$> unmet)) ++
         match unmet with
         | [] => []
         | _ :: _ => ["warning: Unmet dependencies need to be fixed manually"]
         end)%list
  end.
Proof.
  unfold main_check, bind, get_uv, lift, ret.
  destruct (filter_unmet_deps K (uv w) symbols) as [unmet | e].
  - rewrite warn_each_run. destruct unmet as [| x unmet].
    + intros [= <- <-]. simpl. by rewrite !app_nil_r.
    + unfold eprint. simpl. by intros [= <- <-].
  - by intros [= <- <-].
Qed.

End Checks.

(** [A] is [y], [B] is [n]: [A] is the one violation. *)
Lemma warn_unmet_deps_spec_witness :
  warn_unmet_deps Scenario.two_cycle [Scenario.A; Scenario.B] Scenario.only_A_yes =
    (Ok true, World (uv Scenario.only_A_yes) ["warning: Unmet dependency for symbol A"]) ∧
  ∃ syms : list sym_id,
    filter_unmet_deps Scenario.two_cycle (uv Scenario.only_A_yes)
      [Scenario.A; Scenario.B] = Ok syms ∧
    World (uv Scenario.only_A_yes) ["warning: Unmet dependency for symbol A"] =
      World (uv Scenario.only_A_yes)
            (stderr Scenario.only_A_yes ++ (unmet_line Scenario.two_cycle <$> syms)) ∧
    (true = true ↔ syms ≠ []).
Proof.
  split; [reflexivity |].
  exact (warn_unmet_deps_spec Scenario.two_cycle [Scenario.A; Scenario.B]
           Scenario.only_A_yes true _ eq_refl).
Defined.

Lemma main_check_fixed_witness :
  main_check Scenario.two_cycle true [Scenario.A; Scenario.B] 2 Scenario.only_A_yes =
    Some (Ok tt,
          World (<[Scenario.B := VInt 2]> (uv Scenario.only_A_yes))
                ["warning: Unmet dependency for symbol A";
                 "warning: Changing symbol value: B n -> y"]) ∧
  filter_unmet_deps Scenario.two_cycle (<[Scenario.B := VInt 2]> (uv Scenario.only_A_yes))
    [Scenario.A; Scenario.B] = Ok [].
Proof.
  assert (Hrun : main_check Scenario.two_cycle true [Scenario.A; Scenario.B] 2
                   Scenario.only_A_yes =
    Some (Ok tt,
          World (<[Scenario.B := VInt 2]> (uv Scenario.only_A_yes))
                ["warning: Unmet dependency for symbol A";
                 "warning: Changing symbol value: B n -> y"]))
    by (vm_compute; reflexivity).
  split; [exact Hrun |].
  exact (main_check_fixed Scenario.two_cycle _ _ _ _ Hrun).
Defined.

Lemma main_check_report_only_witness :
  main_check Scenario.two_cycle false [Scenario.A; Scenario.B] 0 Scenario.only_A_yes =
    Some (Ok tt,
          World (uv Scenario.only_A_yes)
                ["warning: Unmet dependency for symbol A";
                 "warning: Unmet dependencies need to be fixed manually"]) ∧
  uv Scenario.only_A_yes = uv Scenario.only_A_yes.
Proof.
  assert (Hrun : main_check Scenario.two_cycle false [Scenario.A; Scenario.B] 0
                   Scenario.only_A_yes =
    Some (Ok tt,
          World (uv Scenario.only_A_yes)
                ["warning: Unmet dependency for symbol A";
                 "warning: Unmet dependencies need to be fixed manually"]))
    by (vm_compute; reflexivity).
  split; [exact Hrun |].
  exact (proj1 (main_check_report_only Scenario.two_cycle _ _ _ _ _ Hrun)).
Defined.

Lemma filter_unmet_deps_spec_witness :
  filter_unmet_deps Scenario.string_leaf (uv Scenario.only_A_yes)
    [Scenario.A; Scenario.B] = Ok [Scenario.A] ∧
  (Scenario.A ∈ [Scenario.A] ↔
   Scenario.A ∈ [Scenario.A; Scenario.B] ∧
   in_BOOL_TRISTATE (orig_type Scenario.string_leaf Scenario.A) = true ∧
   deps_met Scenario.string_leaf (uv Scenario.only_A_yes) Scenario.A = Ok false).
Proof.
  split; [reflexivity |].
  exact (proj1 (filter_unmet_deps_spec Scenario.string_leaf (uv Scenario.only_A_yes)
                  [Scenario.A; Scenario.B]) [Scenario.A] eq_refl Scenario.A).
Defined.

(** ** The repair loop: an [UNEQUAL] conjunct *)

Section Unequal.

Variable K : Kconfig.

Lemma TRI_TO_STR_not_tri (v : pyval) :
  is_tri v = false → TRI_TO_STR v = Raise KeyError.
Proof.
  destruct v as [z | x]; [| done].
  destruct z as [| p | p]; [done | | done].
  destruct p as [p | p |]; try destruct p; done.
Qed.

(** X16. A conjunct [v1 != v2] with a constant side, when the effective
    value of the other side is a tri-value, gives that side [y] if the
    value of the constant is [m] and [m] if it is [y].  When the value
    of the constant is anything else, or the effective value of the
    other side is no tri-value (a string, say), it raises [KeyError]
    before it prints or changes anything.  On a bool target the value
    [m] is refused, so [!= y] leaves a bool target as it is. *)
Theorem fix_unequal_outcome (sym v1 v2 : sym_id) (check : gset sym_id) (w : world) :
  is_constant K v1 || is_constant K v2 = true →
  let tgt := fst (tgt_src K v1 v2) in
  let src := snd (tgt_src K v1 v2) in
  (user_value K (uv w) src ≠ VInt 1 → user_value K (uv w) src ≠ VInt 2 →
   fix_dep K sym (ERel UNEQUAL v1 v2) check w = (Raise KeyError, w)) ∧
  (is_tri (user_value K (uv w) tgt) = false →
   fix_dep K sym (ERel UNEQUAL v1 v2) check w = (Raise KeyError, w)) ∧
  (is_tri (user_value K (uv w) tgt) = true →
   ∃ v_old, TRI_TO_STR (user_value K (uv w) tgt) = Ok v_old ∧
     (user_value K (uv w) src = VInt 1 →
      fix_dep K sym (ERel UNEQUAL v1 v2) check w =
        (Ok (check ∪ {[ tgt ]}),
         World (set_value K (uv w) tgt (VInt 2))
               (stderr w ++ [changing_line (name K tgt) v_old "y"]))) ∧
     (user_value K (uv w) src = VInt 2 →
      fix_dep K sym (ERel UNEQUAL v1 v2) check w =
        (Ok (check ∪ {[ tgt ]}),
         World (set_value K (uv w) tgt (VInt 1))
               (stderr w ++ [changing_line (name K tgt) v_old "m"])))) ∧
  (orig_type K tgt = BOOL → set_value K (uv w) tgt (VInt 1) = uv w).
Proof.
  intros Hguard tgt src.
  assert (Hdep : fix_dep K sym (ERel UNEQUAL v1 v2) check w = fix_unequal K v1 v2 check w).
  { simpl. by rewrite Hguard. }
  assert (Hpair : tgt_src K v1 v2 = (tgt, src)) by (by destruct (tgt_src K v1 v2)).
  rewrite Hdep. unfold fix_unequal. rewrite Hpair.
  unfold bind, get_uv, lift, eprint, do_set_value, ret.
  pose proof (set_remove_value (user_value K (uv w) src)) as Hval.
  unfold res_bind in Hval.
  split; [| split; [| split]].
  - intros H1 H2.
    destruct (set_remove (user_value K (uv w) src) [1; 2]) as [values | e].
    + destruct (first_of values) as [value | e].
      * by destruct Hval as [[? _] | [? _]].
      * by destruct Hval as [-> _].
    + by destruct Hval as [-> _].
  - intros Hstr%TRI_TO_STR_not_tri.
    destruct (set_remove (user_value K (uv w) src) [1; 2]) as [values | e].
    + destruct (first_of values) as [value | e].
      * by rewrite Hstr.
      * by destruct Hval as [-> _].
    + by destruct Hval as [-> _].
  - intros (z & Hz & Hr)%is_tri_inv.
    destruct (TRI_TO_STR_tri z Hr) as [v_old Hold]. rewrite Hz.
    exists v_old. split; [done |]. split; intros ->; rewrite Hold; reflexivity.
  - intros Hty. unfold set_value, value_valid. rewrite Hty. simpl.
    by case_bool_decide.
Qed.

End Unequal.

(** [A] depends on [B != n]; on [B != m] with [B] holding a string; on
    [B != m] with [B] at [n]. *)
Lemma fix_unequal_outcome_witness :
  fix_dep Scenario.unequal_n Scenario.A (ERel UNEQUAL Scenario.B Table.n) ∅
    Scenario.only_A_yes = (Raise KeyError, Scenario.only_A_yes) ∧
  fix_dep Scenario.unequal_m Scenario.A (ERel UNEQUAL Scenario.B Table.m) ∅
    Scenario.A_yes_S_abc = (Raise KeyError, Scenario.A_yes_S_abc) ∧
  fix_dep Scenario.unequal_m Scenario.A (ERel UNEQUAL Scenario.B Table.m) ∅
    Scenario.only_A_yes =
    (Ok (∅ ∪ {[ Scenario.B ]}),
     World (<[Scenario.B := VInt 2]> (uv Scenario.only_A_yes))
           ["warning: Changing symbol value: B n -> y"]).
Proof.
  split; [| split].
  - refine (proj1 (fix_unequal_outcome Scenario.unequal_n Scenario.A Scenario.B Table.n ∅
                     Scenario.only_A_yes eq_refl) _ _); vm_compute; discriminate.
  - exact (proj1 (proj2 (fix_unequal_outcome Scenario.unequal_m Scenario.A Scenario.B
                           Table.m ∅ Scenario.A_yes_S_abc eq_refl)) eq_refl).
  - destruct (proj1 (proj2 (proj2 (fix_unequal_outcome Scenario.unequal_m Scenario.A
                                     Scenario.B Table.m ∅ Scenario.only_A_yes eq_refl)))
                eq_refl) as (v_old & Hold & Hm & _).
    injection Hold as <-. exact (Hm eq_refl).
Defined.

(** ** The banner *)

Lemma length_append (s t : string) :
  String.length (s ++ t) = (String.length s + String.length t)%nat.
Proof. induction s as [| c s IH]; simpl; [done | by rewrite IH]. Qed.

Lemma length_fill (n : nat) (c : ascii) :
  String.length (string_of_list_ascii (replicate n c)) = n.
Proof. induction n as [| n IH]; simpl; [done | by rewrite IH]. Qed.

Lemma prefix_append (s t : string) : String.prefix s (s ++ t) = true.
Proof.
  induction s as [| c s IH]; simpl; [by destruct t |].
  destruct (ascii_dec c c); [exact IH | done].
Qed.

Lemma get_fill (n i : nat) (c : ascii) :
  (i < n)%nat → String.get i (string_of_list_ascii (replicate n c)) = Some c.
Proof.
  revert i. induction n as [| n IH]; intros i Hi; [lia |].
  destruct i as [| i]; simpl; [done |]. apply IH. lia.
Qed.

Lemma get_append_r (s t : string) (i : nat) :
  String.get (String.length s + i) (s ++ t) = String.get i t.
Proof. induction s as [| c s IH]; simpl; [done | exact IH]. Qed.

(** X17. The banner starts with [-- msg ], everything after that is
    dashes, there are as many as make 100 characters when the message
    has at most 96, and nothing is cut when the message is longer. *)
Theorem banner_msg_length (msg : string) :
  String.length (banner_msg msg) = Nat.max 100 (String.length msg + 4) ∧
  String.prefix ("-- " ++ msg ++ " ") (banner_msg msg) = true ∧
  ∀ i : nat,
    (String.length msg + 4 ≤ i < String.length (banner_msg msg))%nat →
    String.get i (banner_msg msg) = Some "-"%char.
Proof.
  assert (Hhead : String.length ("-- " ++ msg ++ " ") = (String.length msg + 4)%nat).
  { change ("-- " ++ msg ++ " ") with (String "-" (String "-" (String " " (msg ++ " ")))).
    cbn [String.length]. rewrite length_append. simpl. lia. }
  assert (Hlen : String.length (banner_msg msg) = Nat.max 100 (String.length msg + 4)).
  { unfold banner_msg, ljust. rewrite length_append, length_fill, Hhead. lia. }
  split; [exact Hlen |]. split; [apply prefix_append |].
  intros i [Hlo Hhi]. rewrite Hlen in Hhi. unfold banner_msg, ljust.
  replace i with (String.length ("-- " ++ msg ++ " ") + (i - (String.length msg + 4)))%nat
    by (rewrite Hhead; lia).
  rewrite get_append_r. apply get_fill. rewrite Hhead. lia.
Qed.
